(** * ssm_cache/cache.py: the caching wrapper around SSM parameters

    A shallow embedding of [ssm_cache/cache.py].  Python objects live in an
    explicit store (the [World]): parameters and groups are referred to by
    their position in the store, so that the back-reference
    [parameter._group] and the list [group._parameters] alias the same
    objects, as they do in Python.  Methods are state transformers that
    either return or raise; the interpreter's bounded call stack is the
    [fuel] argument of the methods that call each other. *)

From stdpp Require Import base option list gmap strings.
From Stdlib Require Import ZArith Lia.

Set Warnings "-register-all".

Open Scope Z_scope.

(** ** Python values and exceptions *)

Inductive PyVal : Type :=
| PNone
| PBool (b : bool)
| PInt (z : Z)
| PStr (s : string)
| PList (l : list PyVal)
| PDict (d : list (string * PyVal)).

(** [v is None] *)
Definition is_None (v : PyVal) : bool :=
  match v with PNone => true | _ => false end.

(** The exception classes the module can meet, with Python's hierarchy. *)
Inductive ExnClass : Type :=
| BaseException | KeyboardInterrupt | Exception
| ArithmeticError | OverflowError
| AttributeError | ImportError | LookupError | KeyError | TypeError
| RuntimeError | RecursionError | NotImplementedError | ReferenceError
| InvalidParam            (* cache.py, line 8 *)
| ClientError             (* any failure of the remote store *)
| UserError (name : string).

#[global] Instance ExnClass_eq_dec : EqDecision ExnClass.
Proof. solve_decision. Defined.

Definition parent (c : ExnClass) : option ExnClass :=
  match c with
  | BaseException => None
  | KeyboardInterrupt | Exception => Some BaseException
  | KeyError => Some LookupError
  | OverflowError => Some ArithmeticError
  | RecursionError | NotImplementedError => Some RuntimeError
  | _ => Some Exception
  end.

Fixpoint issubclass_upto (n : nat) (c d : ExnClass) : bool :=
  if decide (c = d) then true
  else match n with
       | O => false
       | S n' => match parent c with
                 | Some c' => issubclass_upto n' c' d
                 | None => false
                 end
       end.

(** The hierarchy above has depth three. *)
Definition issubclass : ExnClass -> ExnClass -> bool := issubclass_upto 3.

Record exn : Type := Exn { exn_class : ExnClass; exn_msg : string }.

(** [except error_class:] catches [e] when [isinstance e error_class]. *)
Definition isinstance (e : exn) (c : ExnClass) : bool :=
  issubclass (exn_class e) c.

Definition recursion_error : exn :=
  Exn RecursionError "maximum recursion depth exceeded".
Definition dangling : exn := Exn ReferenceError "no such object".

(** [v[key]] for a string key *)
Fixpoint assoc (key : string) (d : list (string * PyVal)) : option PyVal :=
  match d with
  | [] => None
  | (k, v) :: d' => if decide (k = key) then Some v else assoc key d'
  end.

Definition getitem (v : PyVal) (key : string) : exn + PyVal :=
  match v with
  | PDict d => match assoc key d with
               | Some x => inr x
               | None => inl (Exn KeyError key)
               end
  | PList _ => inl (Exn TypeError "list indices must be integers")
  | PStr _ => inl (Exn TypeError "string indices must be integers")
  | _ => inl (Exn TypeError "object is not subscriptable")
  end.

(** ** The remote store *)

Inductive Outcome : Type :=
| Returns (response : PyVal)
| Throws (e : exn).

(** The client object: what [get_parameters(Names=..., WithDecryption=...)]
    answers, and how long the round trip takes (microseconds). *)
Record Client : Type := {
  get_parameters : list string -> bool -> Outcome;
  latency : Z
}.

(** ** Objects *)

(** Times are microseconds: a [datetime] is counted from the epoch, and
    [timedelta s] is the length of [s] seconds. *)
Definition timedelta (seconds : Z) : Z := seconds * 1000000.

(** [datetime.min] is 0001-01-01 00:00:00 and [datetime.max] is
    9999-12-31 23:59:59.999999. *)
Definition datetime_min : Z := -62135596800 * 1000000.
Definition datetime_max : Z := 253402300799 * 1000000 + 999999.

Definition datetime_ok (t : Z) : bool :=
  (datetime_min <=? t) && (t <=? datetime_max).

(** A [timedelta] holds at most 999999999 days either way. *)
Definition timedelta_ok (seconds : Z) : bool :=
  (-999999999 <=? seconds / 86400) && (seconds / 86400 <=? 999999999).

Definition overflow_error (msg : string) : exn := Exn OverflowError msg.

(** The constructor [timedelta(seconds=s)]: OverflowError out of range. *)
Definition new_timedelta (seconds : Z) : exn + Z :=
  if timedelta_ok seconds then inr (timedelta seconds)
  else inl (overflow_error "days must have magnitude <= 999999999").

(** [t + delta] on a [datetime] and a [timedelta]: OverflowError when the
    sum is no date of the years 1 to 9999. *)
Definition datetime_add (t delta : Z) : exn + Z :=
  if datetime_ok (t + delta) then inr (t + delta)
  else inl (overflow_error "date value out of range").

(** [x or 0] on an optional number *)
Definition or_zero (x : option Z) : Z :=
  match x with
  | None => 0
  | Some z => z
  end.

(** Truth value of an optional number: [None] and [0] are false. *)
Definition truthy (x : option Z) : bool :=
  match x with
  | None => false
  | Some z => negb (z =? 0)
  end.

Record Refreshable : Type := {
  _last_refresh_time : option Z;
  _max_age : option Z;
  _max_age_delta : Z
}.

(** [Refreshable.__init__]; [timedelta(seconds=max_age or 0)] may raise. *)
Definition Refreshable_init (max_age : option Z) : exn + Refreshable :=
  match new_timedelta (or_zero max_age) with
  | inr delta => inr {| _last_refresh_time := None;
                        _max_age := max_age;
                        _max_age_delta := delta |}
  | inl e => inl e
  end.

(** [Refreshable._should_refresh], with [now] the reading of
    [datetime.utcnow()].  A [datetime] is always true, so
    [not self._last_refresh_time] holds for [None] only. *)
Definition Refreshable__should_refresh (r : Refreshable) (now : Z)
    : exn + bool :=
  if negb (truthy (_max_age r)) then inr false
  else match _last_refresh_time r with
       | None => inr true
       | Some t =>
           match datetime_add t (_max_age_delta r) with
           | inr expiry => inr (expiry <? now)
           | inl e => inl e
           end
       end.

Definition stamp (now : Z) (r : Refreshable) : Refreshable :=
  {| _last_refresh_time := Some now;
     _max_age := _max_age r;
     _max_age_delta := _max_age_delta r |}.

Record SSMParameter : Type := {
  p_base : Refreshable;
  _name : string;
  _value : PyVal;
  _with_decryption : bool;
  _group : option nat
}.

Record SSMParameterGroup : Type := {
  g_base : Refreshable;
  _parameters : list nat
}.

(** A reference to an object that has [refresh()]. *)
Inductive Ref : Type :=
| RParam (p : nat)
| RGroup (g : nat).

(** ** The world *)

Inductive Event : Type :=
| EvFactory                                          (* SSM_CLIENT_FACTORY() *)
| EvBoto3                                            (* boto3.client('ssm') *)
| EvGetParameters (names : list string) (with_decryption : bool)
| EvInvoke (args : list PyVal) (kwargs : gmap string PyVal)
| EvCallback.

Record World : Type := {
  params : list SSMParameter;
  groups : list SSMParameterGroup;
  SSM_CLIENT_FACTORY : option Client;  (* the client the factory builds *)
  _SSM_CLIENT : option Client;
  boto3 : option Client;               (* None: boto3 cannot be imported *)
  clock : Z;
  log : list Event
}.

Definition with_params (ps : list SSMParameter) (w : World) : World :=
  {| params := ps; groups := groups w;
     SSM_CLIENT_FACTORY := SSM_CLIENT_FACTORY w; _SSM_CLIENT := _SSM_CLIENT w;
     boto3 := boto3 w; clock := clock w; log := log w |}.

Definition with_groups (gs : list SSMParameterGroup) (w : World) : World :=
  {| params := params w; groups := gs;
     SSM_CLIENT_FACTORY := SSM_CLIENT_FACTORY w; _SSM_CLIENT := _SSM_CLIENT w;
     boto3 := boto3 w; clock := clock w; log := log w |}.

Definition with_client (c : option Client) (w : World) : World :=
  {| params := params w; groups := groups w;
     SSM_CLIENT_FACTORY := SSM_CLIENT_FACTORY w; _SSM_CLIENT := c;
     boto3 := boto3 w; clock := clock w; log := log w |}.

Definition with_clock (t : Z) (w : World) : World :=
  {| params := params w; groups := groups w;
     SSM_CLIENT_FACTORY := SSM_CLIENT_FACTORY w; _SSM_CLIENT := _SSM_CLIENT w;
     boto3 := boto3 w; clock := t; log := log w |}.

Definition record (ev : Event) (w : World) : World :=
  {| params := params w; groups := groups w;
     SSM_CLIENT_FACTORY := SSM_CLIENT_FACTORY w; _SSM_CLIENT := _SSM_CLIENT w;
     boto3 := boto3 w; clock := clock w; log := log w ++ [ev] |}.

(** [datetime.utcnow()] *)
Definition utcnow (w : World) : Z := clock w.

Definition is_fetch (ev : Event) : bool :=
  match ev with EvGetParameters _ _ => true | _ => false end.

(** The external fetches made so far. *)
Definition fetches (w : World) : list Event := filter is_fetch (log w).

(** ** Results *)

Inductive Result (A : Type) : Type :=
| Ok (a : A) (w : World)
| Raise (e : exn) (w : World).
Arguments Ok {A} a w.
Arguments Raise {A} e w.

Definition world_of {A} (r : Result A) : World :=
  match r with Ok _ w => w | Raise _ w => w end.

Definition returned {A} (r : Result A) : bool :=
  match r with Ok _ _ => true | Raise _ _ => false end.

(** Methods are computations over the world. *)
Definition M (A : Type) : Type := World -> Result A.

Definition ret {A} (a : A) : M A := fun w => Ok a w.
Definition raise {A} (e : exn) : M A := fun w => Raise e w.
Definition bind {A B} (m : M A) (k : A -> M B) : M B :=
  fun w => match m w with
           | Ok a w' => k a w'
           | Raise e w' => Raise e w'
           end.
Definition get : M World := fun w => Ok w w.
Definition modify (f : World -> World) : M unit := fun w => Ok tt (f w).

Notation "'do' x <- m ; k" := (bind m (fun x => k))
  (at level 10, x name, m at level 100, k at level 200).

(** [for x in xs: body(x)] *)
Fixpoint for_each (body : nat -> M unit) (xs : list nat) : M unit :=
  match xs with
  | [] => ret tt
  | x :: xs' => do _ <- body x; for_each body xs'
  end.

(** ** Methods *)

(** Replace the parameter (the group) stored at a position. *)
Definition update_param (p : nat) (f : SSMParameter -> SSMParameter)
    (w : World) : World :=
  match params w !! p with
  | Some prm => with_params (<[p := f prm]> (params w)) w
  | None => w
  end.

Definition update_group (g : nat) (f : SSMParameterGroup -> SSMParameterGroup)
    (w : World) : World :=
  match groups w !! g with
  | Some grp => with_groups (<[g := f grp]> (groups w)) w
  | None => w
  end.

Definition set_base (b : Refreshable) (prm : SSMParameter) : SSMParameter :=
  {| p_base := b; _name := _name prm; _value := _value prm;
     _with_decryption := _with_decryption prm; _group := _group prm |}.

Definition set_value (v : PyVal) (prm : SSMParameter) : SSMParameter :=
  {| p_base := p_base prm; _name := _name prm; _value := v;
     _with_decryption := _with_decryption prm; _group := _group prm |}.

Definition set_group (g : option nat) (prm : SSMParameter) : SSMParameter :=
  {| p_base := p_base prm; _name := _name prm; _value := _value prm;
     _with_decryption := _with_decryption prm; _group := g |}.

Definition set_gbase (b : Refreshable) (grp : SSMParameterGroup)
    : SSMParameterGroup :=
  {| g_base := b; _parameters := _parameters grp |}.

Definition append_parameter (p : nat) (grp : SSMParameterGroup)
    : SSMParameterGroup :=
  {| g_base := g_base grp; _parameters := _parameters grp ++ [p] |}.

(** [self._last_refresh_time = now] *)
Definition set_last_refresh_time (r : Ref) (now : Z) (w : World) : World :=
  match r with
  | RParam p => update_param p (fun prm => set_base (stamp now (p_base prm)) prm) w
  | RGroup g => update_group g (fun grp => set_gbase (stamp now (g_base grp)) grp) w
  end.

(** The Refreshable part of an object. *)
Definition base_of (r : Ref) (w : World) : option Refreshable :=
  match r with
  | RParam p => p_base <$> params w !! p
  | RGroup g => g_base <$> groups w !! g
  end.

Definition last_refresh_time (r : Ref) (w : World) : option Z :=
  base_of r w ≫= _last_refresh_time.

(** Put a new object in the store; the answer is its reference. *)
Definition allocate_param (prm : SSMParameter) : M nat :=
  fun w => Ok (length (params w)) (with_params (params w ++ [prm]) w).

Definition allocate_group (grp : SSMParameterGroup) : M nat :=
  fun w => Ok (length (groups w)) (with_groups (groups w ++ [grp]) w).

(** An error or a value, as a computation. *)
Definition lift {A} (x : exn + A) : M A :=
  match x with
  | inr a => ret a
  | inl e => raise e
  end.

(** [SSMParameter.__init__]: the new object and its reference. *)
Definition SSMParameter_init (param_name : string) (max_age : option Z)
    (with_decryption : bool) : M nat :=
  do base <- lift (Refreshable_init max_age);
  allocate_param {| p_base := base;
                    _name := param_name;
                    _value := PNone;
                    _with_decryption := with_decryption;
                    _group := None |}.

(** [SSMParameterGroup.__init__] *)
Definition SSMParameterGroup_init (max_age : option Z) : M nat :=
  do base <- lift (Refreshable_init max_age);
  allocate_group {| g_base := base; _parameters := [] |}.

(** [SSMParameterGroup.parameter] *)
Definition SSMParameterGroup_parameter (g : nat) (param_name : string)
    (max_age : option Z) (with_decryption : bool) : M nat :=
  do p <- SSMParameter_init param_name max_age with_decryption;
  do _ <- modify (update_param p (set_group (Some g)));
  do _ <- modify (update_group g (append_parameter p));
  ret p.

(** [SSMParameter.get_ssm_client]: on the path that builds the client the
    method falls off its end, so that call answers [None]. *)
Definition build_client : M (option Client) :=
  do w <- get;
  match SSM_CLIENT_FACTORY w with
  | Some c =>
      do _ <- modify (fun w => with_client (Some c) (record EvFactory w));
      ret None
  | None =>
      match boto3 w with
      | Some c =>
          do _ <- modify (fun w => with_client (Some c) (record EvBoto3 w));
          ret None
      | None => raise (Exn ImportError "No module named boto3")
      end
  end.

Definition SSMParameter_get_ssm_client (refresh : bool) : M (option Client) :=
  do w <- get;
  match _SSM_CLIENT w with
  | Some c => if negb refresh then ret (Some c) else build_client
  | None => build_client
  end.

(** The call [client.get_parameters(Names=names, WithDecryption=wd)]: one
    round trip, during which the clock advances. *)
Definition call_get_parameters (c : option Client) (names : list string)
    (wd : bool) : M PyVal :=
  match c with
  | None =>
      raise (Exn AttributeError
               "'NoneType' object has no attribute 'get_parameters'")
  | Some cl =>
      do _ <- modify (fun w => with_clock (clock w + latency cl)
                                 (record (EvGetParameters names wd) w));
      match get_parameters cl names wd with
      | Returns v => ret v
      | Throws e => raise e
      end
  end.

Definition subscript (v : PyVal) (key : string) : M PyVal :=
  match getitem v key with
  | inr x => ret x
  | inl e => raise e
  end.

(** Dereference [self]. *)
Definition the_param (p : nat) : M SSMParameter :=
  do w <- get;
  match params w !! p with
  | Some prm => ret prm
  | None => raise dangling
  end.

Definition the_group (g : nat) : M SSMParameterGroup :=
  do w <- get;
  match groups w !! g with
  | Some grp => ret grp
  | None => raise dangling
  end.

(** [Refreshable._refresh], which both classes override; the objects of
    the store are parameters and groups, so no call reaches it. *)
Definition Refreshable__refresh : M unit :=
  raise (Exn NotImplementedError "").

(** [Refreshable.refresh], [SSMParameter._refresh] and
    [SSMParameterGroup._refresh] call each other; every call takes one
    frame of the stack, and a call with no frame left raises
    RecursionError. *)
Fixpoint Refreshable_refresh (fuel : nat) (r : Ref) {struct fuel} : M unit :=
  match fuel with
  | O => raise recursion_error
  | S fuel' =>
      do _ <- match r with
              | RParam p => SSMParameter__refresh fuel' p
              | RGroup g => SSMParameterGroup__refresh fuel' g
              end;
      do w <- get;
      modify (set_last_refresh_time r (utcnow w))
  end
with SSMParameter__refresh (fuel : nat) (p : nat) {struct fuel} : M unit :=
  match fuel with
  | O => raise recursion_error
  | S fuel' =>
      do self <- the_param p;
      match _group self with
      | Some g => Refreshable_refresh fuel' (RGroup g)
      | None =>
          do client <- SSMParameter_get_ssm_client false;
          do response <- call_get_parameters client [_name self]
                           (_with_decryption self);
          do parameters <- subscript response "Parameters";
          do v <- subscript parameters "Value";
          modify (update_param p (set_value v))
      end
  end
with SSMParameterGroup__refresh (fuel : nat) (g : nat) {struct fuel} : M unit :=
  match fuel with
  | O => raise recursion_error
  | S fuel' =>
      do self <- the_group g;
      for_each (SSMParameter__refresh fuel') (_parameters self)
  end.

(** [SSMParameter.name]: the property reads itself. *)
Fixpoint SSMParameter_name (fuel : nat) (p : nat) {struct fuel} : M PyVal :=
  match fuel with
  | O => raise recursion_error
  | S fuel' => SSMParameter_name fuel' p
  end.

(** The test [self._value is None or self._should_refresh()]: the
    second half is evaluated only when a value is cached. *)
Definition needs_refresh (self : SSMParameter) (now : Z) : exn + bool :=
  if is_None (_value self) then inr true
  else Refreshable__should_refresh (p_base self) now.

(** [SSMParameter.value] *)
Definition SSMParameter_value (fuel : nat) (p : nat) : M PyVal :=
  match fuel with
  | O => raise recursion_error
  | S fuel' =>
      do self <- the_param p;
      do w <- get;
      do stale <- lift (needs_refresh self (utcnow w));
      do _ <- (if stale : bool
               then Refreshable_refresh fuel' (RParam p)
               else ret tt);
      do self' <- the_param p;
      ret (_value self')
  end.

(** ** The decorator [SSMParameter.refresh_on_error] *)

(** A Python function applied to positional and keyword arguments. *)
Definition PyFunction : Type := list PyVal -> gmap string PyVal -> M PyVal.

(** What can be passed as [error_callback]; [callable] tells them apart. *)
Inductive PyObj : Type :=
| ObjNone
| ObjValue (v : PyVal)
| ObjFunction (f : M PyVal).

Definition callable (o : PyObj) : bool :=
  match o with ObjFunction _ => true | _ => false end.

(** The call of [func] on [args] and [kwargs], noted in the log. *)
Definition invoke (func : PyFunction) (args : list PyVal)
    (kwargs : gmap string PyVal) : M PyVal :=
  do _ <- modify (record (EvInvoke args kwargs));
  func args kwargs.

(** [error_callback()] under the guard [if callable(error_callback)] *)
Definition run_callback (error_callback : PyObj) : M unit :=
  match error_callback with
  | ObjFunction f =>
      do _ <- modify (record EvCallback);
      do _ <- f;
      ret tt
  | _ => ret tt
  end.

(** [try: body except cls: handler] *)
Definition try_except {A} (body : M A) (cls : ExnClass) (handler : M A) : M A :=
  fun w => match body w with
           | Ok a w' => Ok a w'
           | Raise e w' => if isinstance e cls then handler w' else Raise e w'
           end.

(** The function [wrapped] that the decorator puts in place of [func]. *)
Definition wrapped (fuel : nat) (self : nat) (error_class : ExnClass)
    (error_callback : PyObj) (retry_argument : string) (func : PyFunction)
    : PyFunction :=
  fun args kwargs =>
    try_except (invoke func args kwargs) error_class
      (do _ <- Refreshable_refresh fuel (RParam self);
       do _ <- run_callback error_callback;
       invoke func args (<[retry_argument := PBool true]> kwargs)).

Definition SSMParameter_refresh_on_error (fuel : nat) (self : nat)
    (error_class : ExnClass) (error_callback : PyObj)
    (retry_argument : string) : PyFunction -> PyFunction :=
  wrapped fuel self error_class error_callback retry_argument.

(** ** Worlds to run the methods in *)

(** A store answering in the shape of the SSM API:
    [{'Parameters': [{'Name': n, 'Value': v}, ...]}]. *)
Definition entry (store : list (string * PyVal)) (n : string) : list PyVal :=
  match assoc n store with
  | Some v => [PDict [("Name"%string, PStr n); ("Value"%string, v)]]
  | None => []
  end.

Definition ssm_client (store : list (string * PyVal)) : Client :=
  {| get_parameters := fun names _ =>
       Returns (PDict [("Parameters"%string,
                        PList (concat (map (entry store) names)))]);
     latency := 0 |}.

(** A test double answering [{'Parameters': {'Value': v}}], the one shape
    [SSMParameter._refresh] can read. *)
Definition flat_client (v : PyVal) : Client :=
  {| get_parameters := fun _ _ =>
       Returns (PDict [("Parameters"%string, PDict [("Value"%string, v)])]);
     latency := 0 |}.

(** A store that is down. *)
Definition failing_client : Client :=
  {| get_parameters := fun _ _ => Throws (Exn ClientError "ThrottlingException");
     latency := 0 |}.

(** A fresh interpreter: no object, no client built yet. *)
Definition fresh (factory : option Client) : World :=
  {| params := []; groups := [];
     SSM_CLIENT_FACTORY := factory; _SSM_CLIENT := None; boto3 := None;
     clock := 0; log := [] |}.

Definition seconds (s : Z) : Z := timedelta s.

(** A refresh policy as [__init__] builds it and [refresh] stamps it. *)
Definition policy (max_age : option Z) (last : option Z) : Refreshable :=
  {| _last_refresh_time := last;
     _max_age := max_age;
     _max_age_delta := timedelta (or_zero max_age) |}.

(** ** Notions used in the statements *)

(** The [_refresh] that [self._refresh()] dispatches to. *)
Definition concrete_refresh (fuel : nat) (r : Ref) : M unit :=
  match r with
  | RParam p => SSMParameter__refresh fuel p
  | RGroup g => SSMParameterGroup__refresh fuel g
  end.

(** A computation keeps an observation of the world when the world it
    ends in, returning or raising, shows what the initial one did. *)
Definition keeps {T A} (obs : World -> T) (m : M A) : Prop :=
  forall w, obs (world_of (m w)) = obs w.

Definition external (ev : Event) : bool :=
  match ev with
  | EvFactory | EvBoto3 | EvGetParameters _ _ => true
  | _ => false
  end.

(** Who points to whom: [_group] of every parameter and [_parameters] of
    every group. *)
Definition shape (w : World) : list (option nat) * list (list nat) :=
  (_group <$> params w, _parameters <$> groups w).

(** [q] is in the list of [g] and names [g] as its group: what
    [SSMParameterGroup.parameter] sets up. *)
Definition owned (w : World) (g q : nat) : Prop :=
  (exists l, (_parameters <$> groups w) !! g = Some l /\ q ∈ l)
  /\ (_group <$> params w) !! q = Some (Some g).

(** With the links [s] (see [shape]), a refresh of group [g] asks for a
    refresh of group [h]: some parameter in the list of [g] has [h] for its
    group. *)
Definition calls (s : list (option nat) * list (list nat)) (g h : nat) : Prop :=
  exists l q, s.2 !! g = Some l /\ q ∈ l /\ s.1 !! q = Some (Some h).

(** A store holding A = 1 and B = 2. *)
Definition store_AB : list (string * PyVal) :=
  [("A"%string, PStr "1"); ("B"%string, PStr "2")].

(** [G = SSMParameterGroup(max_age=60); A = G.parameter("A");
     B = G.parameter("B")] in a fresh interpreter. *)
Definition world_AB : World :=
  world_of
    ((do g <- SSMParameterGroup_init (Some 60);
      do _ <- SSMParameterGroup_parameter g "A" None true;
      SSMParameterGroup_parameter g "B" None true)
       (fresh (Some (ssm_client store_AB)))).

(** [A = SSMParameter(name, max_age, with_decryption)] in a fresh
    interpreter whose client factory builds [c]. *)
Definition world_lone (c : Client) (param_name : string) (max_age : option Z)
    (with_decryption : bool) : World :=
  world_of
    (SSMParameter_init param_name max_age with_decryption (fresh (Some c))).

(** [G = SSMParameterGroup(max_age=60); G.refresh()] at time 0, the group
    still empty; then [A = G.parameter("A")]; the clock now reads 61 s. *)
Definition world_late : World :=
  world_of
    ((do g <- SSMParameterGroup_init (Some 60);
      do _ <- Refreshable_refresh 2 (RGroup g);
      do _ <- SSMParameterGroup_parameter g "A" None true;
      modify (with_clock (seconds 61)))
       (fresh (Some (ssm_client store_AB)))).

(** A parameter of a group holding a cached value, the group last
    refreshed at time 0 with [max_age=60], the clock reading 61 s. *)
Definition world_cached : World :=
  {| params := [ {| p_base := policy None None; _name := "A";
                    _value := PStr "1"; _with_decryption := true;
                    _group := Some 0%nat |} ];
     groups := [ {| g_base := policy (Some 60) (Some 0);
                    _parameters := [0%nat] |} ];
     SSM_CLIENT_FACTORY := Some (ssm_client store_AB);
     _SSM_CLIENT := Some (ssm_client store_AB);
     boto3 := None;
     clock := seconds 61;
     log := [] |}.

Definition is_invoke (ev : Event) : bool :=
  match ev with EvInvoke _ _ => true | _ => false end.

(** How many times a decorated function has been called. *)
Definition invocations (w : World) : nat := length (filter is_invoke (log w)).

(** A function, or a callback, that does not itself call a decorated
    function. *)
Definition quiet (func : PyFunction) : Prop :=
  forall args kwargs, keeps invocations (func args kwargs).

Definition quiet_callback (cb : PyObj) : Prop :=
  match cb with
  | ObjFunction f => keeps invocations f
  | _ => True
  end.

(** The store is down.  A first [refresh()] of A has failed, and left the
    client built. *)
Definition world_down : World :=
  world_of (Refreshable_refresh 5 (RParam 0)
              (world_lone failing_client "A" None true)).

(** The store answers in the shape [_refresh] reads.  A first [refresh()]
    of A has failed, and left the client built. *)
Definition world_up : World :=
  world_of (Refreshable_refresh 5 (RParam 0)
              (world_lone (flat_client (PStr "s3cret")) "A" None true)).

(** A function that fails with KeyError whatever it is given. *)
Definition always_fails : PyFunction :=
  fun _ _ => raise (Exn KeyError "token").

(** A function that fails with KeyError unless told it is retried. *)
Definition fails_first : PyFunction :=
  fun _ kwargs =>
    match kwargs !! "is_retry"%string with
    | Some (PBool true) => ret (PStr "done")
    | _ => raise (Exn KeyError "token")
    end.

(** ** Further notions *)

(** The world after the round trip of [get_parameters] for the one name of
    [self]. *)
Definition fetched (cl : Client) (self : SSMParameter) (w : World) : World :=
  with_clock (clock w + latency cl)
    (record (EvGetParameters [_name self] (_with_decryption self)) w).

(** The world after a complete [refresh()] of the lone parameter [p]
    whose fetch answered [v]. *)
Definition refreshed (cl : Client) (self : SSMParameter) (p : nat) (v : PyVal)
    (w : World) : World :=
  set_last_refresh_time (RParam p) (clock w + latency cl)
    (update_param p (set_value v) (fetched cl self w)).

(** [response['Parameters']['Value']] *)
Definition read_answer (response : PyVal) : exn + PyVal :=
  match getitem response "Parameters" with
  | inr parameters => getitem parameters "Value"
  | inl e => inl e
  end.

(** [A = SSMParameter("A", max_age)] in a fresh interpreter whose factory
    builds [c]: a first [refresh()] has failed and left the client built,
    and [A.value] has then been read, at time 0. *)
Definition world_read (c : Client) (max_age : option Z) : World :=
  world_of (SSMParameter_value 5 0
    (world_of (Refreshable_refresh 5 (RParam 0)
       (world_lone c "A" max_age true)))).

(** A store that can be read, and [max_age=60]. *)
Definition world_ttl : World :=
  world_read (flat_client (PStr "s3cret")) (Some 60).

(** A store that can be read, and no [max_age]. *)
Definition world_kept : World :=
  world_read (flat_client (PStr "s3cret")) None.

(** A store whose value for A is [None]. *)
Definition world_null : World := world_read (flat_client PNone) None.

(** A store that can be read, and [max_age] of 10^12 seconds: it makes a
    [timedelta], of some 31700 years. *)
Definition world_far : World :=
  world_read (flat_client (PStr "s3cret")) (Some 1000000000000).

(** What is set when an object is built and when it is declared in a
    group: everything but the cached value and the time of last refresh. *)
Definition p_config (prm : SSMParameter)
    : option Z * Z * string * bool * option nat :=
  (_max_age (p_base prm), _max_age_delta (p_base prm), _name prm,
   _with_decryption prm, _group prm).

Definition g_config (grp : SSMParameterGroup) : option Z * Z * list nat :=
  (_max_age (g_base grp), _max_age_delta (g_base grp), _parameters grp).

Definition config (w : World) :=
  (p_config <$> params w, g_config <$> groups w, SSM_CLIENT_FACTORY w, boto3 w).

(** The calls a refresh may log: building the client, and fetching the one
    name of a parameter that has no group, with its decryption flag. *)
Definition allowed (w : World) (ev : Event) : Prop :=
  ev = EvFactory \/ ev = EvBoto3
  \/ exists p prm, params w !! p = Some prm /\ _group prm = None
       /\ ev = EvGetParameters [_name prm] (_with_decryption prm).

(** [w'] comes after [w]: same configuration, and a log grown by allowed
    calls only. *)
Definition trail (w w' : World) : Prop :=
  config w' = config w
  /\ exists evs, log w' = log w ++ evs /\ Forall (allowed w) evs.

Definition follows {A} (m : M A) : Prop :=
  forall w, trail w (world_of (m w)).

(** A policy whose [timedelta] is that of its [max_age], as [__init__]
    sets them. *)
Definition coherent (b : Refreshable) : Prop :=
  _max_age_delta b = timedelta (or_zero (_max_age b)).

(** The state the methods keep: the parameters listed by a group are
    parameters of the store naming that group; a parameter naming a group
    is listed by it and has never been given a value; policies are
    coherent. *)
Definition consistent (w : World) : Prop :=
  (forall g grp q, groups w !! g = Some grp -> q ∈ _parameters grp ->
     exists prm, params w !! q = Some prm /\ _group prm = Some g)
  /\ (forall q prm g, params w !! q = Some prm -> _group prm = Some g ->
        _value prm = PNone
        /\ exists grp, groups w !! g = Some grp /\ q ∈ _parameters grp)
  /\ (forall r b, base_of r w = Some b -> coherent b).

(** What a program using the module can do, one call at a time; the store
    may change its answers and time may pass in between. *)
Inductive Op : Type :=
| NewParameter (param_name : string) (max_age : option Z)
    (with_decryption : bool)
| NewGroup (max_age : option Z)
| AddParameter (g : nat) (param_name : string) (max_age : option Z)
    (with_decryption : bool)
| Refresh (fuel : nat) (r : Ref)
| ReadValue (fuel : nat) (p : nat)
| Sleep (dt : Z)
| Rotate (c : Client).

(** The store now answers as [c] does. *)
Definition with_store (c : Client) (w : World) : World :=
  {| params := params w; groups := groups w;
     SSM_CLIENT_FACTORY := (fun _ => c) <$> SSM_CLIENT_FACTORY w;
     _SSM_CLIENT := (fun _ => c) <$> _SSM_CLIENT w;
     boto3 := (fun _ => c) <$> boto3 w; clock := clock w; log := log w |}.

Definition step (o : Op) (w : World) : World :=
  match o with
  | NewParameter n m d => world_of (SSMParameter_init n m d w)
  | NewGroup m => world_of (SSMParameterGroup_init m w)
  | AddParameter g n m d =>
      match groups w !! g with
      | Some _ => world_of (SSMParameterGroup_parameter g n m d w)
      | None => w
      end
  | Refresh fuel r => world_of (Refreshable_refresh fuel r w)
  | ReadValue fuel p => world_of (SSMParameter_value fuel p w)
  | Sleep dt => with_clock (clock w + dt) w
  | Rotate c => with_store c w
  end.

Definition run (ops : list Op) (w : World) : World :=
  foldl (fun w o => step o w) w ops.

(** The worlds a program can be in, started in a fresh interpreter. *)
Definition reachable (w : World) : Prop :=
  exists factory ops, w = run ops (fresh factory).

(** The names of the parameters of a group, in the order of its list. *)
Definition group_names (w : World) (g : nat) : list string :=
  match groups w !! g with
  | Some grp => omap (fun q => _name <$> params w !! q) (_parameters grp)
  | None => []
  end.

(** * Properties *)

(** ** The refresh policy *)

Lemma init_policy max_age :
  timedelta_ok (or_zero max_age) = true ->
  Refreshable_init max_age = inr (policy max_age None).
Proof.
  intros H. unfold Refreshable_init, new_timedelta. now rewrite H.
Qed.

Lemma init_overflow max_age :
  timedelta_ok (or_zero max_age) = false ->
  Refreshable_init max_age
  = inl (overflow_error "days must have magnitude <= 999999999").
Proof.
  intros H. unfold Refreshable_init, new_timedelta. now rewrite H.
Qed.

Lemma stamp_policy now max_age last :
  stamp now (policy max_age last) = policy max_age (Some now).
Proof. reflexivity. Qed.


(** With a [max_age] that counts and a last refresh, the test is the
    comparison when the expiry is a date, and OverflowError when not. *)
Lemma should_refresh_dated d t now :
  d <> 0 -> datetime_ok (t + timedelta d) = true ->
  Refreshable__should_refresh (policy (Some d) (Some t)) now
  = inr (t + timedelta d <? now).
Proof.
  intros Hd Hok. unfold Refreshable__should_refresh, datetime_add; simpl.
  apply Z.eqb_neq in Hd. now rewrite Hd, Hok.
Qed.

Lemma should_refresh_overflows d t now :
  d <> 0 -> datetime_ok (t + timedelta d) = false ->
  Refreshable__should_refresh (policy (Some d) (Some t)) now
  = inl (overflow_error "date value out of range").
Proof.
  intros Hd Hok. unfold Refreshable__should_refresh, datetime_add; simpl.
  apply Z.eqb_neq in Hd. now rewrite Hd, Hok.
Qed.




(** ** Unfolding the methods *)

Lemma refresh_unfold fuel r w :
  Refreshable_refresh (S fuel) r w =
  match concrete_refresh fuel r w with
  | Ok _ w' => Ok tt (set_last_refresh_time r (utcnow w') w')
  | Raise e w' => Raise e w'
  end.
Proof.
  destruct r; simpl; unfold bind, concrete_refresh;
    match goal with |- context [match ?m with _ => _ end] =>
      destruct m end; reflexivity.
Qed.

Lemma bind_ok {A B} (m : M A) (k : A -> M B) w a w' :
  m w = Ok a w' -> bind m k w = k a w'.
Proof. intros H. unfold bind. now rewrite H. Qed.

Lemma bind_raise {A B} (m : M A) (k : A -> M B) w e w' :
  m w = Raise e w' -> bind m k w = Raise e w'.
Proof. intros H. unfold bind. now rewrite H. Qed.

Lemma the_param_ok p w self :
  params w !! p = Some self -> the_param p w = Ok self w.
Proof. intros H. unfold the_param, bind, get. now rewrite H. Qed.

Lemma the_group_ok g w self :
  groups w !! g = Some self -> the_group g w = Ok self w.
Proof. intros H. unfold the_group, bind, get. now rewrite H. Qed.

Lemma the_param_dangling p w :
  params w !! p = None -> the_param p w = Raise dangling w.
Proof. intros H. unfold the_param, bind, get. now rewrite H. Qed.

Lemma the_group_dangling g w :
  groups w !! g = None -> the_group g w = Raise dangling w.
Proof. intros H. unfold the_group, bind, get. now rewrite H. Qed.

Lemma param_refresh_grouped fuel p w self g :
  params w !! p = Some self -> _group self = Some g ->
  SSMParameter__refresh (S fuel) p w = Refreshable_refresh fuel (RGroup g) w.
Proof.
  intros Hp Hg. simpl.
  rewrite (bind_ok _ _ _ _ _ (the_param_ok _ _ _ Hp)). now rewrite Hg.
Qed.

Lemma param_refresh_alone fuel p w self :
  params w !! p = Some self -> _group self = None ->
  SSMParameter__refresh (S fuel) p w =
  (do client <- SSMParameter_get_ssm_client false;
   do response <- call_get_parameters client [_name self]
                    (_with_decryption self);
   do parameters <- subscript response "Parameters";
   do v <- subscript parameters "Value";
   modify (update_param p (set_value v))) w.
Proof.
  intros Hp Hg. simpl.
  rewrite (bind_ok _ _ _ _ _ (the_param_ok _ _ _ Hp)). now rewrite Hg.
Qed.

Lemma param_refresh_dangling fuel p w :
  params w !! p = None ->
  SSMParameter__refresh (S fuel) p w = Raise dangling w.
Proof.
  intros Hp. simpl. now rewrite (bind_raise _ _ _ _ _ (the_param_dangling _ _ Hp)).
Qed.

Lemma group_refresh_unfold fuel g w self :
  groups w !! g = Some self ->
  SSMParameterGroup__refresh (S fuel) g w =
  for_each (SSMParameter__refresh fuel) (_parameters self) w.
Proof.
  intros Hg. simpl. now rewrite (bind_ok _ _ _ _ _ (the_group_ok _ _ _ Hg)).
Qed.

Lemma group_refresh_dangling fuel g w :
  groups w !! g = None ->
  SSMParameterGroup__refresh (S fuel) g w = Raise dangling w.
Proof.
  intros Hg. simpl. now rewrite (bind_raise _ _ _ _ _ (the_group_dangling _ _ Hg)).
Qed.

Lemma for_each_cons body x xs w :
  for_each body (x :: xs) w =
  match body x w with
  | Ok _ w' => for_each body xs w'
  | Raise e w' => Raise e w'
  end.
Proof. reflexivity. Qed.

(** ** The [name] property *)

(** C10: reading the [name] property of a parameter never returns the
    name: the getter calls itself until the stack is exhausted, whatever
    its depth, and the read ends in RecursionError with nothing changed. *)
Theorem name_never_returns (fuel : nat) (p : nat) (w : World) :
  SSMParameter_name fuel p w = Raise recursion_error w.
Proof. induction fuel as [|fuel IH]; [reflexivity | exact IH]. Qed.

(** ** Construction makes no call *)

Lemma SSMParameter_init_returns n m d w base :
  Refreshable_init m = inr base ->
  SSMParameter_init n m d w =
  Ok (length (params w))
     (with_params (params w ++ [ {| p_base := base; _name := n;
                                    _value := PNone; _with_decryption := d;
                                    _group := None |} ]) w).
Proof. intros H. unfold SSMParameter_init, bind. now rewrite H. Qed.

Lemma SSMParameter_init_raises n m d w e :
  Refreshable_init m = inl e -> SSMParameter_init n m d w = Raise e w.
Proof. intros H. unfold SSMParameter_init, bind. now rewrite H. Qed.

Lemma SSMParameterGroup_init_returns m w base :
  Refreshable_init m = inr base ->
  SSMParameterGroup_init m w =
  Ok (length (groups w))
     (with_groups (groups w ++ [ {| g_base := base; _parameters := [] |} ]) w).
Proof. intros H. unfold SSMParameterGroup_init, bind. now rewrite H. Qed.

Lemma SSMParameterGroup_init_raises m w e :
  Refreshable_init m = inl e -> SSMParameterGroup_init m w = Raise e w.
Proof. intros H. unfold SSMParameterGroup_init, bind. now rewrite H. Qed.

Lemma parameter_returns g n m d w base :
  Refreshable_init m = inr base ->
  SSMParameterGroup_parameter g n m d w =
  Ok (length (params w))
     (update_group g (append_parameter (length (params w)))
        (update_param (length (params w)) (set_group (Some g))
           (with_params (params w ++ [ {| p_base := base; _name := n;
                                          _value := PNone;
                                          _with_decryption := d;
                                          _group := None |} ]) w))).
Proof.
  intros H. unfold SSMParameterGroup_parameter.
  now rewrite (bind_ok _ _ _ _ _ (SSMParameter_init_returns n m d w base H)).
Qed.

Lemma parameter_raises g n m d w e :
  Refreshable_init m = inl e ->
  SSMParameterGroup_parameter g n m d w = Raise e w.
Proof.
  intros H. unfold SSMParameterGroup_parameter.
  now rewrite (bind_raise _ _ _ _ _ (SSMParameter_init_raises n m d w e H)).
Qed.

(** C9: constructing a parameter, directly or through a group, leaves the
    log of external calls, the client and the clock as they were, whether
    the constructor returns or refuses its [max_age]; the parameter it
    returns holds no value.  The only methods that reach the store are
    [refresh] and, through it, [value]. *)
Theorem construction_makes_no_call (param_name : string) (max_age : option Z)
    (with_decryption : bool) (g : nat) (w : World) :
  let r1 := SSMParameter_init param_name max_age with_decryption w in
  let r2 := SSMParameterGroup_parameter g param_name max_age
              with_decryption w in
  let w1 := world_of r1 in
  let w2 := world_of r2 in
  (log w1 = log w /\ fetches w1 = fetches w
   /\ _SSM_CLIENT w1 = _SSM_CLIENT w /\ clock w1 = clock w)
  /\ (log w2 = log w /\ fetches w2 = fetches w
      /\ _SSM_CLIENT w2 = _SSM_CLIENT w /\ clock w2 = clock w)
  /\ match r1 with
     | Ok p _ => _value <$> params w1 !! p = Some PNone
     | Raise e _ => exn_class e = OverflowError /\ w1 = w
     end.
Proof.
  simpl.
  destruct (Refreshable_init max_age) as [e|base] eqn:Hinit.
  - rewrite (SSMParameter_init_raises _ _ _ _ _ Hinit).
    rewrite (parameter_raises _ _ _ _ _ _ Hinit). simpl.
    repeat split.
    unfold Refreshable_init, new_timedelta in Hinit.
    destruct (timedelta_ok (or_zero max_age)); [discriminate|].
    now injection Hinit as <-.
  - rewrite (SSMParameter_init_returns _ _ _ _ _ Hinit).
    rewrite (parameter_returns _ _ _ _ _ _ Hinit). simpl.
    split; [|split].
    + repeat split.
    + unfold update_group, update_param; simpl.
      repeat match goal with
             | |- context [match ?o with Some _ => _ | None => _ end] =>
                 destruct o; simpl
             end; repeat split.
    + rewrite lookup_app_r by lia.
      now rewrite Nat.sub_diag.
Qed.

(** ** What the refresh methods leave alone *)

Section Frame.
Context {T : Type} (obs : World -> T).

Lemma keeps_ret {A} (a : A) : keeps obs (ret a).
Proof. intros w. reflexivity. Qed.

Lemma keeps_raise {A} (e : exn) : keeps obs (@raise A e).
Proof. intros w. reflexivity. Qed.

Lemma keeps_get : keeps obs get.
Proof. intros w. reflexivity. Qed.

Lemma keeps_bind {A B} (m : M A) (k : A -> M B) :
  keeps obs m -> (forall a, keeps obs (k a)) -> keeps obs (bind m k).
Proof.
  intros Hm Hk w. unfold bind. specialize (Hm w).
  destruct (m w) as [a w'|e w']; simpl in *; [|assumption].
  now rewrite Hk.
Qed.

Lemma keeps_modify (f : World -> World) :
  (forall w, obs (f w) = obs w) -> keeps obs (modify f).
Proof. intros Hf w. apply Hf. Qed.

Lemma keeps_for_each (body : nat -> M unit) (xs : list nat) :
  (forall x, keeps obs (body x)) -> keeps obs (for_each body xs).
Proof.
  intros Hbody. induction xs as [|x xs IH]; simpl.
  - apply keeps_ret.
  - apply keeps_bind; [apply Hbody | intros _; exact IH].
Qed.

Lemma keeps_subscript v key : keeps obs (subscript v key).
Proof.
  unfold subscript. destruct (getitem v key); [apply keeps_raise | apply keeps_ret].
Qed.

Lemma keeps_the_param p : keeps obs (the_param p).
Proof.
  apply keeps_bind; [apply keeps_get | intros w0].
  destruct (params w0 !! p); [apply keeps_ret | apply keeps_raise].
Qed.

Lemma keeps_the_group g : keeps obs (the_group g).
Proof.
  apply keeps_bind; [apply keeps_get | intros w0].
  destruct (groups w0 !! g); [apply keeps_ret | apply keeps_raise].
Qed.

Hypothesis obs_client : forall c w, obs (with_client c w) = obs w.
Hypothesis obs_clock : forall t w, obs (with_clock t w) = obs w.
Hypothesis obs_record :
  forall ev w, external ev = true -> obs (record ev w) = obs w.
Hypothesis obs_value :
  forall p v w, obs (update_param p (set_value v) w) = obs w.
Hypothesis obs_group_stamp :
  forall g t w, obs (set_last_refresh_time (RGroup g) t w) = obs w.

Lemma keeps_build_client : keeps obs build_client.
Proof.
  apply keeps_bind; [apply keeps_get | intros w0].
  destruct (SSM_CLIENT_FACTORY w0) as [c|]; [|destruct (boto3 w0) as [c|]].
  - apply keeps_bind; [|intros _; apply keeps_ret].
    apply keeps_modify. intros w. now rewrite obs_client, obs_record.
  - apply keeps_bind; [|intros _; apply keeps_ret].
    apply keeps_modify. intros w. now rewrite obs_client, obs_record.
  - apply keeps_raise.
Qed.

Lemma keeps_get_ssm_client refresh :
  keeps obs (SSMParameter_get_ssm_client refresh).
Proof.
  apply keeps_bind; [apply keeps_get | intros w0].
  destruct (_SSM_CLIENT w0); [destruct (negb refresh)|];
    auto using keeps_ret, keeps_build_client.
Qed.

Lemma keeps_call_get_parameters c names wd :
  keeps obs (call_get_parameters c names wd).
Proof.
  destruct c as [cl|]; simpl; [|apply keeps_raise].
  apply keeps_bind.
  - apply keeps_modify. intros w. now rewrite obs_clock, obs_record.
  - intros _. destruct (get_parameters cl names wd);
      [apply keeps_ret | apply keeps_raise].
Qed.

(** The fetch of one parameter, and a whole refresh started from a
    group or reached from a parameter's [_refresh]. *)
Lemma keeps_refresh_family fuel :
  (forall g, keeps obs (Refreshable_refresh fuel (RGroup g)))
  /\ (forall p, keeps obs (SSMParameter__refresh fuel p))
  /\ (forall g, keeps obs (SSMParameterGroup__refresh fuel g)).
Proof.
  induction fuel as [|fuel (IHr & IHp & IHg)].
  - repeat split; intros; apply keeps_raise.
  - assert (forall p, keeps obs (SSMParameter__refresh (S fuel) p)) as Hp.
    { intros p. simpl. apply keeps_bind; [apply keeps_the_param|].
      intros self. destruct (_group self) as [g|]; [apply IHr|].
      apply keeps_bind; [apply keeps_get_ssm_client | intros c].
      apply keeps_bind; [apply keeps_call_get_parameters | intros resp].
      apply keeps_bind; [apply keeps_subscript | intros ps].
      apply keeps_bind; [apply keeps_subscript | intros v].
      apply keeps_modify. intros w. apply obs_value. }
    repeat split; [| exact Hp |].
    + intros g. simpl. apply keeps_bind; [apply IHg | intros _].
      apply keeps_bind; [apply keeps_get | intros w0].
      apply keeps_modify. intros w. apply obs_group_stamp.
    + intros g. simpl. apply keeps_bind; [apply keeps_the_group|].
      intros self. apply keeps_for_each. exact IHp.
Qed.

Lemma keeps_param_refresh fuel p : keeps obs (SSMParameter__refresh fuel p).
Proof. apply keeps_refresh_family. Qed.

Lemma keeps_group_refresh fuel g :
  keeps obs (SSMParameterGroup__refresh fuel g).
Proof. apply keeps_refresh_family. Qed.

Lemma keeps_concrete_refresh fuel r : keeps obs (concrete_refresh fuel r).
Proof.
  destruct r; [apply keeps_param_refresh | apply keeps_group_refresh].
Qed.

Hypothesis obs_param_stamp :
  forall p t w, obs (set_last_refresh_time (RParam p) t w) = obs w.

Lemma keeps_refresh fuel r : keeps obs (Refreshable_refresh fuel r).
Proof.
  destruct fuel as [|fuel]; [apply keeps_raise|].
  simpl. apply keeps_bind.
  - apply (keeps_concrete_refresh fuel r).
  - intros _. apply keeps_bind; [apply keeps_get | intros w0].
    apply keeps_modify. intros w.
    destruct r; [apply obs_param_stamp | apply obs_group_stamp].
Qed.
End Frame.

(** ** The links between parameters and groups *)

Lemma owned_shape w w' g q : shape w' = shape w -> owned w g q -> owned w' g q.
Proof. unfold shape, owned. intros [= -> ->]. auto. Qed.

Lemma fmap_update {A B} (f : A -> B) (h : A -> A) (l : list A) i x :
  l !! i = Some x -> f (h x) = f x -> f <$> <[i := h x]> l = f <$> l.
Proof.
  intros Hi Hf. rewrite list_fmap_insert, Hf.
  apply list_insert_id. now rewrite list_lookup_fmap, Hi.
Qed.

Lemma shape_update_param p h w :
  (forall prm, _group (h prm) = _group prm) ->
  shape (update_param p h w) = shape w.
Proof.
  intros Hh. unfold update_param.
  destruct (params w !! p) as [prm|] eqn:Hp; [|reflexivity].
  unfold shape; simpl. now rewrite (fmap_update _group h _ _ _ Hp).
Qed.

Lemma shape_update_group g h w :
  (forall grp, _parameters (h grp) = _parameters grp) ->
  shape (update_group g h w) = shape w.
Proof.
  intros Hh. unfold update_group.
  destruct (groups w !! g) as [grp|] eqn:Hg; [|reflexivity].
  unfold shape; simpl. now rewrite (fmap_update _parameters h _ _ _ Hg).
Qed.

Lemma shape_stamp r t w : shape (set_last_refresh_time r t w) = shape w.
Proof.
  destruct r; simpl; [apply shape_update_param | apply shape_update_group];
    reflexivity.
Qed.

Lemma shape_refresh fuel r : keeps shape (Refreshable_refresh fuel r).
Proof.
  apply keeps_refresh; try reflexivity.
  - intros p v w. now apply shape_update_param.
  - intros g t w. apply (shape_stamp (RGroup g)).
  - intros p t w. apply (shape_stamp (RParam p)).
Qed.

Lemma shape_param_refresh fuel p : keeps shape (SSMParameter__refresh fuel p).
Proof.
  apply keeps_param_refresh; try reflexivity.
  - intros q v w. now apply shape_update_param.
  - intros g t w. apply (shape_stamp (RGroup g)).
Qed.

(** ** Refreshing a group that owns a parameter *)

(** The parameter's [_refresh] goes back to the group's [refresh], whose
    [_refresh] goes back to the parameter's: no depth of stack is enough. *)
Lemma for_each_stuck (body : nat -> M unit) (q : nat) (xs : list nat) :
  (forall x, keeps shape (body x)) ->
  forall w,
    q ∈ xs ->
    (forall w', shape w' = shape w -> returned (body q w') = false) ->
    returned (for_each body xs w) = false.
Proof.
  intros Hkeeps. induction xs as [|x xs IH]; intros w Hq Hstuck.
  - now apply elem_of_nil in Hq.
  - rewrite for_each_cons.
    destruct (body x w) as [[] w1|e w1] eqn:Hx; [|reflexivity].
    assert (shape w1 = shape w) as Hs.
    { specialize (Hkeeps x w). now rewrite Hx in Hkeeps. }
    apply elem_of_cons in Hq as [->|Hq].
    + specialize (Hstuck w eq_refl). now rewrite Hx in Hstuck.
    + apply IH; [assumption|].
      intros w' Hw'. apply Hstuck. congruence.
Qed.

Lemma owned_lookup w g q :
  owned w g q ->
  exists grp prm, groups w !! g = Some grp /\ q ∈ _parameters grp
                  /\ params w !! q = Some prm /\ _group prm = Some g.
Proof.
  intros [(l & Hl & Hq) Hp].
  rewrite list_lookup_fmap in Hl. rewrite list_lookup_fmap in Hp.
  destruct (groups w !! g) as [grp|]; [|discriminate].
  destruct (params w !! q) as [prm|]; [|discriminate].
  simpl in *. injection Hl as <-. injection Hp as Hp. eauto 10.
Qed.

Lemma refresh_of_owner_stuck fuel :
  forall w g q, owned w g q ->
    returned (Refreshable_refresh fuel (RGroup g) w) = false.
Proof.
  induction fuel as [fuel IH] using lt_wf_ind. intros w g q Hown.
  destruct fuel as [|fuel]; [reflexivity|].
  rewrite refresh_unfold; simpl.
  enough (returned (SSMParameterGroup__refresh fuel g w) = false) as H.
  { destruct (SSMParameterGroup__refresh fuel g w); [discriminate | reflexivity]. }
  destruct fuel as [|fuel]; [reflexivity|].
  destruct (owned_lookup _ _ _ Hown) as (grp & prm & Hg & Hq & _).
  rewrite (group_refresh_unfold _ _ _ _ Hg).
  apply (for_each_stuck _ q); [apply shape_param_refresh | assumption |].
  intros w' Hw'.
  destruct fuel as [|fuel]; [reflexivity|].
  pose proof (owned_shape _ _ _ _ Hw' Hown) as Hown'.
  destruct (owned_lookup _ _ _ Hown') as (_ & prm' & _ & _ & Hp' & Hgr').
  rewrite (param_refresh_grouped _ _ _ _ _ Hp' Hgr').
  apply (IH fuel) with (q := q); [lia | exact Hown'].
Qed.

(** When the owned parameter is the first of the list, the stack overflows
    before anything has been done. *)
Lemma refresh_of_owner_overflows fuel :
  forall w g grp q qs prm,
    groups w !! g = Some grp -> _parameters grp = q :: qs ->
    params w !! q = Some prm -> _group prm = Some g ->
    Refreshable_refresh fuel (RGroup g) w = Raise recursion_error w.
Proof.
  induction fuel as [fuel IH] using lt_wf_ind.
  intros w g grp q qs prm Hg Hl Hp Hgr.
  destruct fuel as [|fuel]; [reflexivity|].
  rewrite refresh_unfold; simpl.
  destruct fuel as [|fuel]; [reflexivity|].
  rewrite (group_refresh_unfold _ _ _ _ Hg), Hl, for_each_cons.
  destruct fuel as [|fuel]; [reflexivity|].
  rewrite (param_refresh_grouped _ _ _ _ _ Hp Hgr).
  rewrite (IH fuel) with (grp := grp) (q := q) (qs := qs) (prm := prm);
    [reflexivity | lia | assumption..].
Qed.

Lemma update_param_some p f w prm :
  params w !! p = Some prm ->
  update_param p f w = with_params (<[p := f prm]> (params w)) w.
Proof. intros H. unfold update_param. now rewrite H. Qed.

Lemma update_group_some g f w grp :
  groups w !! g = Some grp ->
  update_group g f w = with_groups (<[g := f grp]> (groups w)) w.
Proof. intros H. unfold update_group. now rewrite H. Qed.

(** [SSMParameterGroup.parameter] makes the group own the new parameter. *)
Lemma parameter_owned g grp param_name max_age with_decryption w p w' :
  groups w !! g = Some grp ->
  SSMParameterGroup_parameter g param_name max_age with_decryption w
  = Ok p w' ->
  owned w' g p.
Proof.
  intros Hg Hret.
  destruct (Refreshable_init max_age) as [e|base] eqn:Hinit.
  { now rewrite (parameter_raises _ _ _ _ _ _ Hinit) in Hret. }
  rewrite (parameter_returns _ _ _ _ _ _ Hinit) in Hret.
  injection Hret as <- <-.
  set (prm := {| p_base := base; _name := param_name;
                 _value := PNone; _with_decryption := with_decryption;
                 _group := None |}).
  set (w1 := with_params (params w ++ [prm]) w).
  assert (params w1 !! length (params w) = Some prm) as Hp.
  { simpl. rewrite lookup_app_r by lia. now rewrite Nat.sub_diag. }
  rewrite (update_param_some _ _ _ _ Hp).
  rewrite (update_group_some _ _ _ grp) by exact Hg.
  split; simpl.
  - exists (_parameters grp ++ [length (params w)]). split.
    + rewrite list_lookup_fmap, list_lookup_insert_eq; [reflexivity|].
      now apply lookup_lt_Some in Hg.
    + apply elem_of_app. right. apply list_elem_of_singleton. reflexivity.
  - rewrite list_lookup_fmap, list_lookup_insert_eq; [reflexivity|].
    now apply lookup_lt_Some in Hp.
Qed.

(** C1: on the group G of [world_AB], owning A and B, [refresh()] makes no
    batched fetch and assigns no value: with any depth of stack it ends in
    RecursionError, the world as it was, no call to the store logged and
    both cached values still [None]. *)
Theorem group_refresh_fetches_nothing (fuel : nat) :
  Refreshable_refresh fuel (RGroup 0) world_AB = Raise recursion_error world_AB
  /\ _parameters <$> groups world_AB !! 0%nat = Some [0%nat; 1%nat]
  /\ fetches world_AB = []
  /\ _value <$> params world_AB = [PNone; PNone].
Proof.
  split; [|repeat split].
  eapply refresh_of_owner_overflows; reflexivity.
Qed.

(** C3: for a group that owns at least one parameter, [refresh()] does not
    complete: whatever the depth of the stack, the call does not return. *)
Theorem group_refresh_never_completes (fuel : nat) (w : World) (g q : nat) :
  owned w g q ->
  returned (Refreshable_refresh fuel (RGroup g) w) = false.
Proof. apply refresh_of_owner_stuck. Qed.

Lemma group_refresh_never_completes_witness :
  owned world_AB 0 1
  /\ returned (Refreshable_refresh 1000 (RGroup 0) world_AB) = false.
Proof.
  assert (owned world_AB 0 1) as H.
  { split; [exists [0%nat; 1%nat]; split; [reflexivity|] | reflexivity].
    apply elem_of_cons. right. apply elem_of_cons. now left. }
  split; [exact H | exact (group_refresh_never_completes 1000 world_AB 0 1 H)].
Defined.

(** ** Refreshing a parameter that has no group *)

(** C6: the first [refresh()] of a parameter without a group, in a fresh
    interpreter, issues no fetch and caches nothing: [get_ssm_client]
    builds the client but answers [None], and the call ends in
    AttributeError.  A second [refresh()], the client now built, issues
    the fetch for the name with its decryption flag, and on an answer in
    the shape of the SSM API ends in TypeError, the cached value still
    [None].  This for every [max_age] the constructor accepts; with a
    [max_age] out of the range of [timedelta] no parameter is built. *)
Theorem lone_refresh_caches_nothing (fuel : nat) (c : Client)
    (store : list (string * PyVal)) (param_name : string)
    (max_age : option Z) (with_decryption : bool) :
  let w := world_lone c param_name max_age with_decryption in
  let w1 := with_client (Some c) (record EvFactory w) in
  let w' := world_lone (ssm_client store) param_name max_age with_decryption in
  let w1' := with_client (Some (ssm_client store)) (record EvFactory w') in
  let w2' := record (EvGetParameters [param_name] with_decryption) w1' in
  if timedelta_ok (or_zero max_age) then
    (Refreshable_refresh (S (S fuel)) (RParam 0) w =
       Raise (Exn AttributeError
                "'NoneType' object has no attribute 'get_parameters'") w1
     /\ fetches w1 = []
     /\ _value <$> params w1 !! 0%nat = Some PNone)
    /\ (Refreshable_refresh (S (S fuel)) (RParam 0) w1' =
          Raise (Exn TypeError "list indices must be integers") w2'
        /\ fetches w2' = [EvGetParameters [param_name] with_decryption]
        /\ _value <$> params w2' !! 0%nat = Some PNone)
  else params w = [] /\ params w' = [].
Proof.
  cbv zeta. unfold world_lone.
  destruct (timedelta_ok (or_zero max_age)) eqn:Hok.
  - rewrite !(SSMParameter_init_returns _ _ _ _ _ (init_policy max_age Hok)).
    simpl. repeat split.
  - rewrite !(SSMParameter_init_raises _ _ _ _ _ (init_overflow max_age Hok)).
    now split.
Qed.

Lemma lone_refresh_caches_nothing_witness :
  let c := ssm_client store_AB in
  let w := world_lone c "A" None true in
  Refreshable_refresh 2 (RParam 0) w
  = Raise (Exn AttributeError
             "'NoneType' object has no attribute 'get_parameters'")
      (with_client (Some c) (record EvFactory w)).
Proof.
  exact (proj1 (proj1 (lone_refresh_caches_nothing 0 (ssm_client store_AB)
                         store_AB "A" None true))).
Defined.

Lemma get_ssm_client_built w cl :
  _SSM_CLIENT w = Some cl ->
  SSMParameter_get_ssm_client false w = Ok (Some cl) w.
Proof.
  intros H. unfold SSMParameter_get_ssm_client, bind, get. now rewrite H.
Qed.

Lemma call_get_parameters_returns cl names wd v w :
  get_parameters cl names wd = Returns v ->
  call_get_parameters (Some cl) names wd w =
  Ok v (with_clock (clock w + latency cl) (record (EvGetParameters names wd) w)).
Proof.
  intros H. unfold call_get_parameters, bind, modify. now rewrite H.
Qed.

Lemma call_get_parameters_throws cl names wd e w :
  get_parameters cl names wd = Throws e ->
  call_get_parameters (Some cl) names wd w =
  Raise e (with_clock (clock w + latency cl)
             (record (EvGetParameters names wd) w)).
Proof.
  intros H. unfold call_get_parameters, bind, modify. now rewrite H.
Qed.

(** With the client built and an answer of the one shape
    [response['Parameters']['Value']] can read, the fetch is made and its
    value cached. *)
Lemma lone_refresh_flat fuel p w self cl ps v :
  params w !! p = Some self -> _group self = None ->
  _SSM_CLIENT w = Some cl ->
  get_parameters cl [_name self] (_with_decryption self) =
    Returns (PDict ps) ->
  assoc "Parameters" ps = Some (PDict [("Value"%string, v)]) ->
  SSMParameter__refresh (S fuel) p w =
  Ok tt (update_param p (set_value v)
           (with_clock (clock w + latency cl)
              (record (EvGetParameters [_name self] (_with_decryption self))
                 w))).
Proof.
  intros Hp Hg Hc Hget Hps.
  rewrite (param_refresh_alone _ _ _ _ Hp Hg).
  rewrite (bind_ok _ _ _ _ _ (get_ssm_client_built _ _ Hc)).
  rewrite (bind_ok _ _ _ _ _ (call_get_parameters_returns _ _ _ _ _ Hget)).
  unfold bind, subscript; simpl. rewrite Hps; simpl.
  destruct (decide ("Value"%string = "Value"%string)); [reflexivity | congruence].
Qed.

(** When the store fails, so does the refresh, with the store's error. *)
Lemma lone_refresh_store_down fuel p w self cl e :
  params w !! p = Some self -> _group self = None ->
  _SSM_CLIENT w = Some cl ->
  get_parameters cl [_name self] (_with_decryption self) = Throws e ->
  Refreshable_refresh (S (S fuel)) (RParam p) w =
  Raise e (with_clock (clock w + latency cl)
             (record (EvGetParameters [_name self] (_with_decryption self)) w)).
Proof.
  intros Hp Hg Hc Hget.
  rewrite refresh_unfold. unfold concrete_refresh.
  rewrite (param_refresh_alone _ _ _ _ Hp Hg).
  rewrite (bind_ok _ _ _ _ _ (get_ssm_client_built _ _ Hc)).
  now rewrite (bind_raise _ _ _ _ _ (call_get_parameters_throws _ _ _ _ _ Hget)).
Qed.

(** ** Reading [value] *)

Lemma value_unfold fuel p w self :
  params w !! p = Some self ->
  SSMParameter_value (S fuel) p w =
  match needs_refresh self (utcnow w) with
  | inl e => Raise e w
  | inr true => (do _ <- Refreshable_refresh fuel (RParam p);
                 do self' <- the_param p;
                 ret (_value self')) w
  | inr false => Ok (_value self) w
  end.
Proof.
  intros Hp. simpl.
  rewrite (bind_ok _ _ _ _ _ (the_param_ok _ _ _ Hp)).
  unfold bind at 1, get. unfold bind at 1.
  destruct (needs_refresh self (utcnow w)) as [e|[|]]; simpl;
    [reflexivity | reflexivity |].
  unfold bind at 1, ret.
  now rewrite (bind_ok _ _ _ _ _ (the_param_ok _ _ _ Hp)).
Qed.

(** A cached value that the parameter's own policy does not call stale is
    returned as it is: nothing else is consulted. *)
Lemma value_cached fuel p w self :
  params w !! p = Some self ->
  is_None (_value self) = false ->
  Refreshable__should_refresh (p_base self) (utcnow w) = inr false ->
  SSMParameter_value (S fuel) p w = Ok (_value self) w.
Proof.
  intros Hp Hv Hs. rewrite (value_unfold _ _ _ _ Hp).
  unfold needs_refresh. now rewrite Hv, Hs.
Qed.

(** Otherwise the read goes through [refresh()]. *)
Lemma value_refreshes fuel p w self :
  params w !! p = Some self ->
  needs_refresh self (utcnow w) = inr true ->
  SSMParameter_value (S fuel) p w =
  (do _ <- Refreshable_refresh fuel (RParam p);
   do self' <- the_param p;
   ret (_value self')) w.
Proof.
  intros Hp Hs. now rewrite (value_unfold _ _ _ _ Hp), Hs.
Qed.

(** And when the test itself raises, so does the read. *)
Lemma value_test_raises fuel p w self e :
  params w !! p = Some self ->
  needs_refresh self (utcnow w) = inl e ->
  SSMParameter_value (S fuel) p w = Raise e w.
Proof.
  intros Hp Hs. now rewrite (value_unfold _ _ _ _ Hp), Hs.
Qed.

(** A read that has to refresh a parameter owned by a group overflows the
    stack like the group's own [refresh()]. *)
Lemma value_of_owned_overflows fuel p w self g grp q qs prm :
  params w !! p = Some self -> _group self = Some g ->
  needs_refresh self (utcnow w) = inr true ->
  groups w !! g = Some grp -> _parameters grp = q :: qs ->
  params w !! q = Some prm -> _group prm = Some g ->
  SSMParameter_value fuel p w = Raise recursion_error w.
Proof.
  intros Hp Hpg Hs Hg Hl Hq Hqg.
  destruct fuel as [|fuel]; [reflexivity|].
  rewrite (value_refreshes _ _ _ _ Hp Hs).
  apply bind_raise.
  destruct fuel as [|fuel]; [reflexivity|].
  rewrite refresh_unfold; simpl.
  destruct fuel as [|fuel]; [reflexivity|].
  rewrite (param_refresh_grouped _ _ _ _ _ Hp Hpg).
  now rewrite (refresh_of_owner_overflows fuel w g grp q qs prm).
Qed.

(** C2: the read of [value] consults the parameter's own policy, not the
    group's.  In [world_late] the group's [max_age] has expired and reading
    [A.value] does set off a refresh, but that refresh never completes and
    the read returns nothing; in [world_cached] the group's [max_age] has
    expired as well and reading [A.value] returns the cached value with no
    refresh at all. *)
Theorem value_ignores_group_policy (fuel : nat) :
  (g_base <$> groups world_late !! 0%nat = Some (policy (Some 60) (Some 0))
   /\ Refreshable__should_refresh (policy (Some 60) (Some 0))
        (utcnow world_late) = inr true
   /\ SSMParameter_value fuel 0 world_late = Raise recursion_error world_late)
  /\ (g_base <$> groups world_cached !! 0%nat = Some (policy (Some 60) (Some 0))
      /\ Refreshable__should_refresh (policy (Some 60) (Some 0))
           (utcnow world_cached) = inr true
      /\ SSMParameter_value (S fuel) 0 world_cached =
           Ok (PStr "1") world_cached).
Proof.
  split; (split; [reflexivity | split; [reflexivity|]]).
  - eapply value_of_owned_overflows; reflexivity.
  - exact (value_cached fuel 0 world_cached _ eq_refl eq_refl eq_refl).
Qed.

(** ** The decorator *)

Lemma invocations_record ev w :
  invocations (record ev w) =
  (if is_invoke ev then S (invocations w) else invocations w).
Proof.
  unfold invocations; simpl. rewrite filter_app, length_app.
  destruct ev; simpl; lia.
Qed.

Lemma invocations_refresh fuel r : keeps invocations (Refreshable_refresh fuel r).
Proof.
  apply keeps_refresh; try reflexivity.
  - intros ev w Hev. rewrite invocations_record. now destruct ev.
  - intros p v w. unfold update_param. now destruct (params w !! p).
  - intros g t w. simpl. unfold update_group. now destruct (groups w !! g).
  - intros p t w. simpl. unfold update_param. now destruct (params w !! p).
Qed.

Lemma try_except_caught {A} (body handler : M A) cls w e w1 :
  body w = Raise e w1 -> isinstance e cls = true ->
  try_except body cls handler w = handler w1.
Proof. intros Hb He. unfold try_except. now rewrite Hb, He. Qed.

Lemma try_except_passed {A} (body handler : M A) cls w e w1 :
  body w = Raise e w1 -> isinstance e cls = false ->
  try_except body cls handler w = Raise e w1.
Proof. intros Hb He. unfold try_except. now rewrite Hb, He. Qed.

Lemma try_except_returned {A} (body handler : M A) cls w a w1 :
  body w = Ok a w1 -> try_except body cls handler w = Ok a w1.
Proof. intros Hb. unfold try_except. now rewrite Hb. Qed.

Lemma invocations_invoke func args kwargs w :
  quiet func ->
  invocations (world_of (invoke func args kwargs w)) = S (invocations w).
Proof.
  intros Hq. unfold invoke, bind, modify.
  specialize (Hq args kwargs (record (EvInvoke args kwargs) w)).
  destruct (func args kwargs _); simpl in *; now rewrite Hq, invocations_record.
Qed.

Lemma invocations_callback cb :
  quiet_callback cb -> keeps invocations (run_callback cb).
Proof.
  intros Hq. destruct cb as [| v | f]; simpl; try apply keeps_ret.
  apply keeps_bind.
  - apply keeps_modify. intros w. now rewrite invocations_record.
  - intros _. apply keeps_bind; [exact Hq | intros _; apply keeps_ret].
Qed.

(** C8: when the decorated function fails with an error that is not an
    instance of [error_class], the decorated call fails with that same
    error in the world the one invocation left: nothing is refreshed and
    the function is not invoked again. *)
Theorem other_errors_pass_through (fuel : nat) (self : nat)
    (error_class : ExnClass) (error_callback : PyObj)
    (retry_argument : string) (func : PyFunction) (args : list PyVal)
    (kwargs : gmap string PyVal) (w : World) (e : exn) (w1 : World) :
  invoke func args kwargs w = Raise e w1 ->
  isinstance e error_class = false ->
  wrapped fuel self error_class error_callback retry_argument func
    args kwargs w = Raise e w1.
Proof. intros Hf He. unfold wrapped. now apply try_except_passed. Qed.

Lemma other_errors_pass_through_witness :
  let e := Exn KeyError "token" in
  let w1 := record (EvInvoke [] ∅) world_up in
  invoke always_fails [] ∅ world_up = Raise e w1
  /\ isinstance e ClientError = false
  /\ wrapped 5 0 ClientError ObjNone "is_retry" always_fails [] ∅ world_up =
       Raise e w1.
Proof.
  split; [reflexivity | split; [reflexivity|]].
  apply (other_errors_pass_through 5 0 ClientError ObjNone "is_retry"
           always_fails [] ∅ world_up); reflexivity.
Defined.

(** C4, as the code has it: when the first invocation fails with an
    instance of [error_class], the decorated call refreshes the bound
    parameter; if that refresh fails, its error propagates and neither the
    callback nor the function is called again; otherwise the callback is
    called if it is callable (an error of its own propagating likewise),
    and the function is invoked once more with the same positional
    arguments and the keyword arguments with the retry flag set to True,
    the result or the error of that second invocation being the outcome.
    A function that does not call decorated functions itself is invoked at
    most twice. *)
Theorem wrapped_retries_once (fuel : nat) (self : nat)
    (error_class : ExnClass) (error_callback : PyObj)
    (retry_argument : string) (func : PyFunction) (args : list PyVal)
    (kwargs : gmap string PyVal) (w : World) (e : exn) (w1 : World) :
  invoke func args kwargs w = Raise e w1 ->
  isinstance e error_class = true ->
  quiet func -> quiet_callback error_callback ->
  let kwargs' := <[retry_argument := PBool true]> kwargs in
  let outcome :=
    wrapped fuel self error_class error_callback retry_argument func
      args kwargs w in
  outcome =
    match Refreshable_refresh fuel (RParam self) w1 with
    | Raise e2 w2 => Raise e2 w2
    | Ok _ w2 =>
        match run_callback error_callback w2 with
        | Raise e3 w3 => Raise e3 w3
        | Ok _ w3 => invoke func args kwargs' w3
        end
    end
  /\ kwargs' !! retry_argument = Some (PBool true)
  /\ (forall k, k <> retry_argument -> kwargs' !! k = kwargs !! k)
  /\ (invocations (world_of outcome) <= invocations w + 2)%nat.
Proof.
  intros Hf He Hq Hcb kwargs' outcome.
  assert (outcome =
    match Refreshable_refresh fuel (RParam self) w1 with
    | Raise e2 w2 => Raise e2 w2
    | Ok _ w2 =>
        match run_callback error_callback w2 with
        | Raise e3 w3 => Raise e3 w3
        | Ok _ w3 => invoke func args kwargs' w3
        end
    end) as Hout.
  { unfold outcome, wrapped. rewrite (try_except_caught _ _ _ _ _ _ Hf He).
    unfold bind. destruct (Refreshable_refresh fuel (RParam self) w1);
      [|reflexivity].
    destruct (run_callback error_callback w0); reflexivity. }
  split; [exact Hout|]. split; [apply lookup_insert_eq|].
  split; [intros k Hk; now apply lookup_insert_ne|].
  rewrite Hout.
  pose proof (invocations_invoke func args kwargs w Hq) as H1.
  rewrite Hf in H1; simpl in H1.
  pose proof (invocations_refresh fuel (RParam self) w1) as H2.
  destruct (Refreshable_refresh fuel (RParam self) w1) as [[] w2|e2 w2];
    simpl in *; [|lia].
  pose proof (invocations_callback error_callback Hcb w2) as H3.
  destruct (run_callback error_callback w2) as [[] w3|e3 w3];
    simpl in *; [|lia].
  rewrite (invocations_invoke func args kwargs' w3 Hq). lia.
Qed.

Lemma quiet_fails_first : quiet fails_first.
Proof.
  intros args kwargs w. unfold fails_first.
  destruct (kwargs !! "is_retry"%string) as [[| [] | | | |]|]; reflexivity.
Qed.

Lemma wrapped_retries_once_witness :
  let e := Exn KeyError "token" in
  let w1 := record (EvInvoke [] ∅) world_up in
  let outcome :=
    wrapped 5 0 Exception (ObjFunction (ret PNone)) "is_retry" fails_first
      [] ∅ world_up in
  (invoke fails_first [] ∅ world_up = Raise e w1
   /\ isinstance e Exception = true
   /\ quiet fails_first
   /\ quiet_callback (ObjFunction (ret PNone)))
  /\ returned outcome = true
  /\ (invocations (world_of outcome) <= invocations world_up + 2)%nat.
Proof.
  assert (invoke fails_first [] ∅ world_up
          = Raise (Exn KeyError "token") (record (EvInvoke [] ∅) world_up))
    as Hf by reflexivity.
  assert (quiet_callback (ObjFunction (ret PNone))) as Hcb
    by (intros w; reflexivity).
  destruct (wrapped_retries_once 5 0 Exception (ObjFunction (ret PNone))
              "is_retry" fails_first [] ∅ world_up _ _ Hf eq_refl
              quiet_fails_first Hcb) as (Hout & Hflag & _ & Hcount).
  split.
  { split; [exact Hf|]. split; [reflexivity|].
    split; [exact quiet_fails_first | exact Hcb]. }
  split; [|exact Hcount].
  rewrite Hout. vm_compute. reflexivity.
Defined.

(** C4 as the claim has it fails when the refresh fails: with the store
    down, the first invocation fails with a KeyError that [Exception]
    catches, the refresh fails with the store's error, and that error is
    the outcome; the callback has not been called and the function has been
    invoked once, not twice. *)
Lemma retry_skipped_when_refresh_fails :
  let e := Exn KeyError "token" in
  let outcome :=
    wrapped 5 0 Exception (ObjFunction (ret PNone)) "is_retry" always_fails
      [] ∅ world_down in
  invoke always_fails [] ∅ world_down
    = Raise e (record (EvInvoke [] ∅) world_down)
  /\ isinstance e Exception = true
  /\ (exists w2, outcome = Raise (Exn ClientError "ThrottlingException") w2)
  /\ filter (fun ev => negb (external ev)) (log (world_of outcome))
     = [EvInvoke [] ∅]
  /\ invocations (world_of outcome) = 1%nat
  /\ forall w', outcome
       <> invoke always_fails [] (<["is_retry"%string := PBool true]> ∅) w'.
Proof.
  split; [reflexivity|]. split; [reflexivity|].
  split; [eexists; reflexivity|]. split; [reflexivity|].
  split; [reflexivity|]. intros w'. discriminate.
Qed.

(** ** The time of the last refresh *)

Lemma for_each_returned (body : nat -> M unit) (xs : list nat) :
  (forall x, keeps shape (body x)) ->
  forall w q,
    returned (for_each body xs w) = true -> q ∈ xs ->
    exists w', shape w' = shape w /\ returned (body q w') = true.
Proof.
  intros Hkeeps. induction xs as [|x xs IH]; intros w q Hret Hq.
  - now apply elem_of_nil in Hq.
  - rewrite for_each_cons in Hret.
    destruct (body x w) as [[] w1|e w1] eqn:Hx; [|discriminate].
    apply elem_of_cons in Hq as [->|Hq].
    + exists w. now rewrite Hx.
    + destruct (IH w1 q Hret Hq) as (w' & Hs & Hr).
      exists w'. split; [|exact Hr].
      rewrite Hs. specialize (Hkeeps x w). now rewrite Hx in Hkeeps.
Qed.

Lemma for_each_changed {T} `{EqDecision T} (obs : World -> T)
    (body : nat -> M unit) (xs : list nat) :
  (forall x, keeps shape (body x)) ->
  forall w,
    obs (world_of (for_each body xs w)) <> obs w ->
    exists q w', q ∈ xs /\ shape w' = shape w
                 /\ obs (world_of (body q w')) <> obs w'.
Proof.
  intros Hkeeps. induction xs as [|x xs IH]; intros w Hne.
  - now destruct Hne.
  - rewrite for_each_cons in Hne.
    pose proof (Hkeeps x w) as Hs.
    destruct (decide (obs (world_of (body x w)) = obs w)) as [Heq|Hx].
    + destruct (body x w) as [[] w1|e w1]; simpl in *;
        [|now destruct Hne].
      rewrite <- Heq in Hne.
      destruct (IH w1 Hne) as (q & w' & Hq & Hs' & Hch).
      exists q, w'. split; [now apply elem_of_cons; right|].
      split; [congruence | exact Hch].
    + exists x, w. split; [now apply elem_of_cons; left|]. now split.
Qed.

Lemma last_group_stamp_other x g t w :
  x <> g ->
  last_refresh_time (RGroup x) (set_last_refresh_time (RGroup g) t w)
  = last_refresh_time (RGroup x) w.
Proof.
  intros Hne. unfold last_refresh_time; simpl. unfold update_group.
  destruct (groups w !! g) as [grp|]; [simpl|reflexivity].
  now rewrite list_lookup_insert_ne by congruence.
Qed.

Lemma last_group_value x p v w :
  last_refresh_time (RGroup x) (update_param p (set_value v) w)
  = last_refresh_time (RGroup x) w.
Proof. unfold update_param. now destruct (params w !! p). Qed.

Lemma last_stamped r t w :
  is_Some (base_of r w) ->
  last_refresh_time r (set_last_refresh_time r t w) = Some t.
Proof.
  unfold last_refresh_time. destruct r as [p|g]; simpl; intros [b Hb].
  - unfold update_param. destruct (params w !! p) as [prm|] eqn:Hp;
      [simpl | discriminate].
    rewrite list_lookup_insert_eq; [reflexivity|].
    now apply lookup_lt_Some in Hp.
  - unfold update_group. destruct (groups w !! g) as [grp|] eqn:Hg;
      [simpl | discriminate].
    rewrite list_lookup_insert_eq; [reflexivity|].
    now apply lookup_lt_Some in Hg.
Qed.

(** [_refresh] does not touch the policy of any parameter. *)
Lemma param_bases_concrete_refresh fuel r :
  keeps (fun w => p_base <$> params w) (concrete_refresh fuel r).
Proof.
  apply keeps_concrete_refresh; try reflexivity.
  - intros p v w. unfold update_param.
    destruct (params w !! p) as [prm|] eqn:Hp; [simpl|reflexivity].
    now apply (fmap_update p_base (set_value v)).
  - intros g t w. simpl. unfold update_group. now destruct (groups w !! g).
Qed.

Section Cycles.
(** The links, fixed: no method changes them. *)
Variable s : list (option nat) * list (list nat).

Lemma shape_lookup w g q l h :
  shape w = s -> s.2 !! g = Some l -> s.1 !! q = Some (Some h) ->
  exists grp prm, groups w !! g = Some grp /\ _parameters grp = l
                  /\ params w !! q = Some prm /\ _group prm = Some h.
Proof.
  intros <- Hl Hq. unfold shape in *; simpl in *.
  rewrite list_lookup_fmap in Hl. rewrite list_lookup_fmap in Hq.
  destruct (groups w !! g) as [grp|]; [|discriminate].
  destruct (params w !! q) as [prm|]; [|discriminate].
  simpl in *. injection Hl as <-. injection Hq as Hq. eauto 10.
Qed.

(** A refresh that returns has seen every refresh it asks for return,
    each on a shorter stack. *)
Lemma returned_calls fuel w g h :
  shape w = s -> calls s g h ->
  returned (Refreshable_refresh fuel (RGroup g) w) = true ->
  exists fuel' w', (fuel' < fuel)%nat /\ shape w' = s
    /\ returned (Refreshable_refresh fuel' (RGroup h) w') = true.
Proof.
  intros Hs (l & q & Hl & Hq & Hh) Hret.
  destruct fuel as [|fuel]; [discriminate|].
  rewrite refresh_unfold in Hret; simpl in Hret.
  destruct fuel as [|fuel]; [discriminate|].
  destruct (shape_lookup w g q l h Hs Hl Hh) as (grp & _ & Hg & Hgl & _).
  rewrite (group_refresh_unfold _ _ _ _ Hg), Hgl in Hret.
  destruct (for_each (SSMParameter__refresh fuel) l w) as [[] w1|] eqn:Hfe;
    [|discriminate].
  destruct (for_each_returned (SSMParameter__refresh fuel) l
              (shape_param_refresh fuel) w q) as (w' & Hs' & Hr);
    [now rewrite Hfe | assumption |].
  destruct fuel as [|fuel]; [discriminate|].
  assert (shape w' = s) as Hs'' by congruence.
  destruct (shape_lookup w' g q l h Hs'' Hl Hh) as (_ & prm & _ & _ & Hp & Hpg).
  rewrite (param_refresh_grouped _ _ _ _ _ Hp Hpg) in Hr.
  exists fuel, w'. split; [lia | now split].
Qed.

Lemma returned_reach fuel w g x :
  rtc (calls s) g x ->
  shape w = s ->
  returned (Refreshable_refresh fuel (RGroup g) w) = true ->
  exists fuel' w', (fuel' <= fuel)%nat /\ shape w' = s
    /\ returned (Refreshable_refresh fuel' (RGroup x) w') = true.
Proof.
  intros Hreach. revert fuel w.
  induction Hreach as [g | g h x Hgh _ IH]; intros fuel w Hs Hret.
  - exists fuel, w. split; [lia | now split].
  - destruct (returned_calls fuel w g h Hs Hgh Hret)
      as (fuel1 & w1 & Hlt & Hs1 & Hr1).
    destruct (IH fuel1 w1 Hs1 Hr1) as (fuel2 & w2 & Hle & Hs2 & Hr2).
    exists fuel2, w2. split; [lia | now split].
Qed.

(** A group whose refresh asks, directly or not, for its own refresh
    never sees it return. *)
Lemma cycle_never_returns g h :
  calls s g h -> rtc (calls s) h g ->
  forall fuel w, shape w = s ->
    returned (Refreshable_refresh fuel (RGroup g) w) = false.
Proof.
  intros Hgh Hhg fuel.
  induction fuel as [fuel IH] using lt_wf_ind. intros w Hs.
  destruct (returned (Refreshable_refresh fuel (RGroup g) w)) eqn:Hret;
    [exfalso | reflexivity].
  destruct (returned_calls fuel w g h Hs Hgh Hret)
    as (fuel1 & w1 & Hlt & Hs1 & Hr1).
  destruct (returned_reach fuel1 w1 h g Hhg Hs1 Hr1)
    as (fuel2 & w2 & Hle & Hs2 & Hr2).
  rewrite (IH fuel2) in Hr2; [discriminate | lia | assumption].
Qed.
End Cycles.

Lemma last_group_fetch x self p :
  keeps (last_refresh_time (RGroup x))
    (do client <- SSMParameter_get_ssm_client false;
     do response <- call_get_parameters client [_name self]
                      (_with_decryption self);
     do parameters <- subscript response "Parameters";
     do v <- subscript parameters "Value";
     modify (update_param p (set_value v))).
Proof.
  apply keeps_bind; [now apply keeps_get_ssm_client | intros c].
  apply keeps_bind; [now apply keeps_call_get_parameters | intros resp].
  apply keeps_bind; [apply keeps_subscript | intros ps].
  apply keeps_bind; [apply keeps_subscript | intros v].
  apply keeps_modify. intros w. apply last_group_value.
Qed.

(** If the time of the last refresh of group [x] has changed, a refresh
    of [x] has been asked for, and has returned. *)
Lemma stamp_traced fuel x :
  let changed (m : M unit) (w : World) :=
    last_refresh_time (RGroup x) (world_of (m w))
    <> last_refresh_time (RGroup x) w in
  let done_once (w : World) :=
    exists fuel' w', shape w' = shape w
      /\ returned (Refreshable_refresh fuel' (RGroup x) w') = true in
  (forall g w, changed (Refreshable_refresh fuel (RGroup g)) w ->
     rtc (calls (shape w)) g x /\ done_once w)
  /\ (forall p w, changed (SSMParameter__refresh fuel p) w ->
        exists h, (shape w).1 !! p = Some (Some h)
                  /\ rtc (calls (shape w)) h x /\ done_once w)
  /\ (forall g w, changed (SSMParameterGroup__refresh fuel g) w ->
        exists h, calls (shape w) g h
                  /\ rtc (calls (shape w)) h x /\ done_once w).
Proof.
  intros changed done_once.
  induction fuel as [|fuel (IHr & IHp & IHg)].
  { split; [|split]; intros ? w Hch; unfold changed in Hch; now destruct Hch. }
  split; [|split].
  - intros g w Hch. unfold changed in Hch.
    rewrite refresh_unfold in Hch. unfold concrete_refresh in Hch.
    destruct (decide (x = g)) as [->|Hne].
    + destruct (SSMParameterGroup__refresh fuel g w) as [[] w1|e w1] eqn:Hc.
      * split; [apply rtc_refl|].
        exists (S fuel), w. split; [reflexivity|].
        rewrite refresh_unfold. unfold concrete_refresh. now rewrite Hc.
      * destruct (IHg g w) as (h & Hgh & Hhx & Hdone).
        { unfold changed. now rewrite Hc. }
        split; [eapply rtc_l; eassumption | exact Hdone].
    + destruct (IHg g w) as (h & Hgh & Hhx & Hdone).
      { unfold changed.
        destruct (SSMParameterGroup__refresh fuel g w) as [[] w1|e w1];
          cbn [world_of] in *; [|exact Hch].
        now rewrite last_group_stamp_other in Hch. }
      split; [eapply rtc_l; eassumption | exact Hdone].
  - intros p w Hch. unfold changed in Hch.
    destruct (params w !! p) as [prm|] eqn:Hp.
    + destruct (_group prm) as [h|] eqn:Hg.
      * rewrite (param_refresh_grouped _ _ _ _ _ Hp Hg) in Hch.
        destruct (IHr h w Hch) as (Hhx & Hdone).
        exists h. split; [|now split].
        unfold shape; simpl. now rewrite list_lookup_fmap, Hp, <- Hg.
      * rewrite (param_refresh_alone _ _ _ _ Hp Hg) in Hch.
        now rewrite last_group_fetch in Hch.
    + rewrite (param_refresh_dangling _ _ _ Hp) in Hch. now destruct Hch.
  - intros g w Hch. unfold changed in Hch.
    destruct (groups w !! g) as [grp|] eqn:Hg.
    + rewrite (group_refresh_unfold _ _ _ _ Hg) in Hch.
      destruct (for_each_changed (last_refresh_time (RGroup x))
                  (SSMParameter__refresh fuel) (_parameters grp)
                  (shape_param_refresh fuel) w Hch)
        as (q & w' & Hq & Hs & Hch').
      destruct (IHp q w' Hch') as (h & Hqh & Hhx & fuel' & w2 & Hs2 & Hr).
      rewrite Hs in Hqh, Hhx.
      exists h. split; [|split; [exact Hhx|]].
      * exists (_parameters grp), q. split; [|now split].
        unfold shape; simpl. now rewrite list_lookup_fmap, Hg.
      * exists fuel', w2. split; [congruence | exact Hr].
    + rewrite (group_refresh_dangling _ _ _ Hg) in Hch. now destruct Hch.
Qed.

(** The [_refresh] of a group never moves the group's own time of last
    refresh: that would take a complete refresh of the group within its
    own refresh. *)
Lemma group_refresh_keeps_own_stamp fuel g :
  keeps (last_refresh_time (RGroup g)) (SSMParameterGroup__refresh fuel g).
Proof.
  intros w.
  destruct (decide (last_refresh_time (RGroup g)
                      (world_of (SSMParameterGroup__refresh fuel g w))
                    = last_refresh_time (RGroup g) w)) as [Heq|Hne];
    [exact Heq | exfalso].
  destruct (stamp_traced fuel g) as (_ & _ & Hg).
  destruct (Hg g w Hne) as (h & Hgh & Hhg & fuel' & w' & Hs & Hr).
  now rewrite (cycle_never_returns (shape w) g h Hgh Hhg fuel' w' Hs) in Hr.
Qed.

Lemma concrete_refresh_keeps_own_stamp fuel r :
  keeps (last_refresh_time r) (concrete_refresh fuel r).
Proof.
  destruct r as [p|g]; [|apply group_refresh_keeps_own_stamp].
  intros w. unfold last_refresh_time; simpl.
  pose proof (param_bases_concrete_refresh fuel (RParam p) w) as H.
  simpl in H.
  rewrite <- !list_lookup_fmap. now rewrite H.
Qed.

(** An object whose [_refresh] returns is an object of the store. *)
Lemma concrete_refresh_returned fuel r w :
  returned (concrete_refresh fuel r w) = true ->
  is_Some (base_of r (world_of (concrete_refresh fuel r w))).
Proof.
  intros Hret.
  assert (is_Some (base_of r w)) as [b Hb].
  { destruct fuel as [|fuel]; [now destruct r|].
    destruct r as [p|g]; simpl in *.
    - destruct (params w !! p) eqn:Hp; [now eexists|].
      now rewrite (bind_raise _ _ _ _ _ (the_param_dangling _ _ Hp)) in Hret.
    - destruct (groups w !! g) eqn:Hg; [now eexists|].
      now rewrite (bind_raise _ _ _ _ _ (the_group_dangling _ _ Hg)) in Hret. }
  assert (length (params (world_of (concrete_refresh fuel r w)))
            = length (params w)
          /\ length (groups (world_of (concrete_refresh fuel r w)))
             = length (groups w)) as [Hlp Hlg].
  { assert (shape (world_of (concrete_refresh fuel r w)) = shape w) as Hs.
    { apply keeps_concrete_refresh; try reflexivity.
      - intros p v w0. now apply shape_update_param.
      - intros g t w0. apply (shape_stamp (RGroup g)). }
    unfold shape in Hs. injection Hs as Hs1 Hs2.
    split; [now rewrite <- (length_fmap _group), Hs1, length_fmap
           | now rewrite <- (length_fmap _parameters), Hs2, length_fmap]. }
  destruct r as [p|g]; simpl in *.
  - destruct (params w !! p) as [prm|] eqn:Hp; [|discriminate].
    apply lookup_lt_Some in Hp. rewrite <- Hlp in Hp.
    apply lookup_lt_is_Some in Hp as [prm' ->]. now eexists.
  - destruct (groups w !! g) as [grp|] eqn:Hg; [|discriminate].
    apply lookup_lt_Some in Hg. rewrite <- Hlg in Hg.
    apply lookup_lt_is_Some in Hg as [grp' ->]. now eexists.
Qed.

(** C7: [refresh()] records the current time as the time of last refresh
    exactly when the object's [_refresh] returns, the time being read once
    it has; when [_refresh] raises, [refresh()] raises the same error in
    the world [_refresh] left, and the time of last refresh of the object
    is what it was before the call. *)
Theorem refresh_stamps_when_fetch_returns (fuel : nat) (r : Ref) (w : World) :
  match concrete_refresh fuel r w with
  | Ok _ w' =>
      Refreshable_refresh (S fuel) r w =
        Ok tt (set_last_refresh_time r (utcnow w') w')
      /\ last_refresh_time r (set_last_refresh_time r (utcnow w') w')
         = Some (utcnow w')
  | Raise e w' =>
      Refreshable_refresh (S fuel) r w = Raise e w'
      /\ last_refresh_time r w' = last_refresh_time r w
  end.
Proof.
  rewrite refresh_unfold.
  pose proof (concrete_refresh_keeps_own_stamp fuel r w) as Hkeep.
  pose proof (concrete_refresh_returned fuel r w) as Hvalid.
  destruct (concrete_refresh fuel r w) as [[] w'|e w']; simpl in *.
  - split; [reflexivity|]. apply last_stamped. now apply Hvalid.
  - now split.
Qed.

(** * Further properties *)

(** ** The client *)

(** X1: in an interpreter where no client is built yet and a factory is
    set, a first [get_ssm_client()] calls the factory, keeps the client and
    answers [None]; a second one answers the kept client, and the factory
    has been called once. *)
Theorem client_built_on_first_call (w : World) (c : Client) :
  _SSM_CLIENT w = None -> SSM_CLIENT_FACTORY w = Some c ->
  (do a <- SSMParameter_get_ssm_client false;
   do b <- SSMParameter_get_ssm_client false;
   ret (a, b)) w
  = Ok (None, Some c) (with_client (Some c) (record EvFactory w)).
Proof.
  intros Hc Hf.
  assert (SSMParameter_get_ssm_client false w =
          Ok None (with_client (Some c) (record EvFactory w))) as H1.
  { unfold SSMParameter_get_ssm_client, bind, get. rewrite Hc.
    unfold build_client, bind, get. now rewrite Hf. }
  rewrite (bind_ok _ _ _ _ _ H1).
  now rewrite (bind_ok _ _ _ _ _
                 (get_ssm_client_built
                    (with_client (Some c) (record EvFactory w)) c eq_refl)).
Qed.

Lemma client_built_on_first_call_witness :
  let w := fresh (Some failing_client) in
  (do a <- SSMParameter_get_ssm_client false;
   do b <- SSMParameter_get_ssm_client false;
   ret (a, b)) w
  = Ok (None, Some failing_client)
       (with_client (Some failing_client) (record EvFactory w)).
Proof.
  exact (client_built_on_first_call (fresh (Some failing_client))
           failing_client eq_refl eq_refl).
Defined.

(** X2: [get_ssm_client] answers a client only when one was built before
    the call and [refresh] is false, and then it changes nothing; in
    particular [get_ssm_client(refresh=True)] never answers a client. *)
Theorem client_answered_only_if_built (refresh : bool) (w w' : World)
    (cl : Client) :
  SSMParameter_get_ssm_client refresh w = Ok (Some cl) w' ->
  refresh = false /\ _SSM_CLIENT w = Some cl /\ w' = w.
Proof.
  unfold SSMParameter_get_ssm_client, bind, get.
  assert (forall w0, build_client w0 <> Ok (Some cl) w') as Hb.
  { intros w0. unfold build_client, bind, get, modify, ret, raise.
    destruct (SSM_CLIENT_FACTORY w0); [discriminate|].
    destruct (boto3 w0); discriminate. }
  destruct (_SSM_CLIENT w) as [c|]; [|intros H; now apply Hb in H].
  destruct refresh; simpl; [intros H; now apply Hb in H|].
  unfold ret. now intros [= -> ->].
Qed.

Lemma client_answered_only_if_built_witness :
  SSMParameter_get_ssm_client false world_up
    = Ok (Some (flat_client (PStr "s3cret"))) world_up
  /\ _SSM_CLIENT world_up = Some (flat_client (PStr "s3cret")).
Proof.
  split; [reflexivity|].
  exact (proj1 (proj2 (client_answered_only_if_built false world_up world_up
                         (flat_client (PStr "s3cret")) eq_refl))).
Defined.

(** X3: when a client has to be built, the factory is preferred; without a
    factory [boto3.client('ssm')] is used; without boto3 the call fails
    with ImportError and leaves the world, and with it any client built
    earlier, as it was. *)
Theorem client_building_order (refresh : bool) (w : World) :
  (_SSM_CLIENT w = None \/ refresh = true) ->
  SSMParameter_get_ssm_client refresh w =
  match SSM_CLIENT_FACTORY w, boto3 w with
  | Some c, _ => Ok None (with_client (Some c) (record EvFactory w))
  | None, Some c => Ok None (with_client (Some c) (record EvBoto3 w))
  | None, None => Raise (Exn ImportError "No module named boto3") w
  end.
Proof.
  intros H. unfold SSMParameter_get_ssm_client, bind, get.
  assert (build_client w =
    match SSM_CLIENT_FACTORY w, boto3 w with
    | Some c, _ => Ok None (with_client (Some c) (record EvFactory w))
    | None, Some c => Ok None (with_client (Some c) (record EvBoto3 w))
    | None, None => Raise (Exn ImportError "No module named boto3") w
    end) as Hb.
  { unfold build_client, bind, get.
    destruct (SSM_CLIENT_FACTORY w); [reflexivity|].
    destruct (boto3 w); reflexivity. }
  destruct (_SSM_CLIENT w) as [c|]; [|exact Hb].
  destruct H as [[=]| ->]. exact Hb.
Qed.

Lemma client_building_order_witness :
  SSMParameter_get_ssm_client true world_up
  = Ok None (with_client (Some (flat_client (PStr "s3cret")))
               (record EvFactory world_up)).
Proof.
  exact (client_building_order true world_up (or_intror eq_refl)).
Defined.

(** ** The fetch of a parameter that has no group *)

Lemma lone_refresh_answer fuel p w self cl resp :
  params w !! p = Some self -> _group self = None ->
  _SSM_CLIENT w = Some cl ->
  get_parameters cl [_name self] (_with_decryption self) = Returns resp ->
  SSMParameter__refresh (S fuel) p w =
  match read_answer resp with
  | inr v => Ok tt (update_param p (set_value v) (fetched cl self w))
  | inl e => Raise e (fetched cl self w)
  end.
Proof.
  intros Hp Hg Hc Hget.
  rewrite (param_refresh_alone _ _ _ _ Hp Hg).
  rewrite (bind_ok _ _ _ _ _ (get_ssm_client_built _ _ Hc)).
  rewrite (bind_ok _ _ _ _ _ (call_get_parameters_returns _ _ _ _ _ Hget)).
  unfold read_answer, bind, subscript, fetched.
  destruct (getitem resp "Parameters") as [e|ps]; [reflexivity|].
  unfold ret. destruct (getitem ps "Value") as [e|v]; reflexivity.
Qed.

Lemma getitem_shape v key x :
  getitem v key = inr x <-> exists d, v = PDict d /\ assoc key d = Some x.
Proof.
  split.
  - destruct v as [| | | | |d]; simpl; try discriminate.
    destruct (assoc key d) as [y|] eqn:Hd; [|discriminate].
    intros [= <-]. eauto.
  - intros (d & -> & Hd). simpl. now rewrite Hd.
Qed.

Lemma getitem_error v key e :
  getitem v key = inl e -> exn_class e = KeyError \/ exn_class e = TypeError.
Proof.
  destruct v as [| | | | |d]; simpl; try (intros [= <-]; now right).
  destruct (assoc key d); [discriminate|]. intros [= <-]. now left.
Qed.

Lemma read_answer_shape resp v :
  read_answer resp = inr v <->
  exists ps d, resp = PDict ps /\ assoc "Parameters" ps = Some (PDict d)
               /\ assoc "Value" d = Some v.
Proof.
  unfold read_answer. split.
  - destruct (getitem resp "Parameters") as [e|x] eqn:H1; [discriminate|].
    intros H2.
    apply getitem_shape in H1 as (ps & -> & Hps).
    apply getitem_shape in H2 as (d & -> & Hd). eauto.
  - intros (ps & d & -> & Hps & Hd).
    rewrite (proj2 (getitem_shape (PDict ps) "Parameters" (PDict d)))
      by eauto.
    apply getitem_shape. eauto.
Qed.

Lemma clock_update_param p f w : clock (update_param p f w) = clock w.
Proof. unfold update_param. now destruct (params w !! p). Qed.

Lemma refresh_lone_returns fuel p w self cl resp v :
  params w !! p = Some self -> _group self = None ->
  _SSM_CLIENT w = Some cl ->
  get_parameters cl [_name self] (_with_decryption self) = Returns resp ->
  read_answer resp = inr v ->
  Refreshable_refresh (S (S fuel)) (RParam p) w
  = Ok tt (refreshed cl self p v w).
Proof.
  intros Hp Hg Hc Hget Hans.
  rewrite refresh_unfold. unfold concrete_refresh.
  rewrite (lone_refresh_answer fuel p w self cl resp Hp Hg Hc Hget), Hans.
  unfold refreshed, utcnow. now rewrite clock_update_param.
Qed.

Lemma refresh_lone_raises fuel p w self cl resp e :
  params w !! p = Some self -> _group self = None ->
  _SSM_CLIENT w = Some cl ->
  get_parameters cl [_name self] (_with_decryption self) = Returns resp ->
  read_answer resp = inl e ->
  Refreshable_refresh (S (S fuel)) (RParam p) w = Raise e (fetched cl self w).
Proof.
  intros Hp Hg Hc Hget Hans.
  rewrite refresh_unfold. unfold concrete_refresh.
  now rewrite (lone_refresh_answer fuel p w self cl resp Hp Hg Hc Hget), Hans.
Qed.

Lemma params_refreshed cl self p v w :
  params w !! p = Some self ->
  params (refreshed cl self p v w) !! p
  = Some (set_base (stamp (clock w + latency cl) (p_base self))
            (set_value v self)).
Proof.
  intros Hp. unfold refreshed; simpl.
  assert (params (fetched cl self w) !! p = Some self) as Hp1 by exact Hp.
  rewrite (update_param_some _ _ _ _ Hp1).
  assert ((p < length (params w))%nat) as Hlt by now apply lookup_lt_Some in Hp.
  set (w1 := with_params (<[p := set_value v self]>
                             (params (fetched cl self w))) (fetched cl self w)).
  assert (params w1 !! p = Some (set_value v self)) as Hp2
    by (simpl; now apply list_lookup_insert_eq).
  rewrite (update_param_some _ _ _ _ Hp2); simpl.
  rewrite list_lookup_insert_eq; [reflexivity|]. now rewrite length_insert.
Qed.

(** X4: with the client built, a [refresh()] of a parameter without a
    group makes one fetch, and what follows depends on the answer alone:
    an answer [{'Parameters': {..., 'Value': v, ...}, ...}] is the only
    one that is read, [v] is cached and the time recorded once the fetch
    is over; on any other answer the refresh fails with KeyError or
    TypeError after the fetch, and no field of any parameter changes. *)
Theorem lone_refresh_by_answer (fuel : nat) (p : nat) (w : World)
    (self : SSMParameter) (cl : Client) (resp : PyVal) :
  params w !! p = Some self -> _group self = None ->
  _SSM_CLIENT w = Some cl ->
  get_parameters cl [_name self] (_with_decryption self) = Returns resp ->
  (forall v,
     (exists ps d, resp = PDict ps /\ assoc "Parameters" ps = Some (PDict d)
                   /\ assoc "Value" d = Some v) ->
     Refreshable_refresh (S (S fuel)) (RParam p) w
       = Ok tt (refreshed cl self p v w)
     /\ _value <$> params (refreshed cl self p v w) !! p = Some v
     /\ last_refresh_time (RParam p) (refreshed cl self p v w)
        = Some (clock w + latency cl))
  /\ ((forall v, read_answer resp <> inr v) ->
      exists e, Refreshable_refresh (S (S fuel)) (RParam p) w
                  = Raise e (fetched cl self w)
                /\ (exn_class e = KeyError \/ exn_class e = TypeError)
                /\ params (fetched cl self w) = params w).
Proof.
  intros Hp Hg Hc Hget.
  split.
  - intros v Hshape. apply read_answer_shape in Hshape.
    split; [|split].
    + now apply (refresh_lone_returns fuel p w self cl resp v).
    + now rewrite (params_refreshed cl self p v w Hp).
    + unfold last_refresh_time; simpl.
      now rewrite (params_refreshed cl self p v w Hp).
  - intros Hbad.
    destruct (read_answer resp) as [e|v] eqn:Hans; [|now destruct (Hbad v)].
    exists e. split; [|split; [|reflexivity]].
    + now apply (refresh_lone_raises fuel p w self cl resp e).
    + unfold read_answer in Hans.
      destruct (getitem resp "Parameters") as [e'|ps] eqn:H1.
      * injection Hans as <-. eapply getitem_error; eassumption.
      * eapply getitem_error; eassumption.
Qed.

Lemma lone_refresh_by_answer_witness :
  let self := {| p_base := policy None None; _name := "A"; _value := PNone;
                 _with_decryption := true; _group := None |} in
  let cl := flat_client (PStr "s3cret") in
  Refreshable_refresh 2 (RParam 0) world_up
    = Ok tt (refreshed cl self 0 (PStr "s3cret") world_up)
  /\ _value <$> params (refreshed cl self 0 (PStr "s3cret") world_up) !! 0%nat
     = Some (PStr "s3cret").
Proof.
  pose proof (lone_refresh_by_answer 0 0 world_up
                {| p_base := policy None None; _name := "A"; _value := PNone;
                   _with_decryption := true; _group := None |}
                (flat_client (PStr "s3cret"))
                (PDict [("Parameters"%string,
                         PDict [("Value"%string, PStr "s3cret")])])
                eq_refl eq_refl eq_refl eq_refl) as [H _].
  destruct (H (PStr "s3cret")) as (H1 & H2 & _).
  - exists [("Parameters"%string, PDict [("Value"%string, PStr "s3cret")])],
           [("Value"%string, PStr "s3cret")].
    repeat split.
  - split; [exact H1 | exact H2].
Defined.

(** ** Reading [value] of a parameter that has no group *)

Lemma value_lone_fetches fuel p w self cl resp v :
  params w !! p = Some self -> _group self = None ->
  needs_refresh self (utcnow w) = inr true ->
  _SSM_CLIENT w = Some cl ->
  get_parameters cl [_name self] (_with_decryption self) = Returns resp ->
  read_answer resp = inr v ->
  SSMParameter_value (S (S (S fuel))) p w = Ok v (refreshed cl self p v w).
Proof.
  intros Hp Hg Hs Hc Hget Hans.
  rewrite (value_refreshes _ _ _ _ Hp Hs).
  rewrite (bind_ok _ _ _ _ _
             (refresh_lone_returns fuel p w self cl resp v Hp Hg Hc Hget Hans)).
  now rewrite (bind_ok _ _ _ _ _
                 (the_param_ok _ _ _ (params_refreshed cl self p v w Hp))).
Qed.


Lemma should_refresh_fresh d t now :
  d = 0 \/ datetime_ok (t + timedelta d) = true -> now <= t + timedelta d ->
  Refreshable__should_refresh (policy (Some d) (Some t)) now = inr false.
Proof.
  intros Hok Hle. destruct (decide (d = 0)) as [->|Hd]; [reflexivity|].
  destruct Hok as [?|Hok]; [contradiction|].
  rewrite (should_refresh_dated d t now Hd Hok).
  f_equal. apply Z.ltb_ge. lia.
Qed.

(** X5: a cached value whose parameter was last refreshed at [t] with
    [max_age = d] is returned as it is, the store not called and nothing
    changed, as long as the clock has not passed [t + d]; the bound is
    included.  This when [t + d] is a date of the years 1 to 9999, or [d]
    is zero and no date is computed. *)
Theorem read_within_max_age (fuel : nat) (p : nat) (w : World)
    (self : SSMParameter) (d t : Z) :
  params w !! p = Some self ->
  is_None (_value self) = false ->
  p_base self = policy (Some d) (Some t) ->
  d = 0 \/ datetime_ok (t + timedelta d) = true ->
  clock w <= t + timedelta d ->
  SSMParameter_value (S fuel) p w = Ok (_value self) w.
Proof.
  intros Hp Hv Hb Hok Hle. apply value_cached; [assumption..|].
  rewrite Hb. now apply should_refresh_fresh.
Qed.


Lemma read_within_max_age_witness :
  let w := with_clock (seconds 60) world_ttl in
  SSMParameter_value 1 0 w = Ok (PStr "s3cret") w.
Proof.
  apply (read_within_max_age 0 0 (with_clock (seconds 60) world_ttl)
           {| p_base := policy (Some 60) (Some 0); _name := "A";
              _value := PStr "s3cret"; _with_decryption := true;
              _group := None |} 60 0);
    [reflexivity | reflexivity | reflexivity | right; reflexivity
    | vm_compute; discriminate].
Defined.


(** X7: with [max_age] unset or zero, a cached value is returned as it is
    whatever the clock reads and whenever the last refresh was: the store
    is not called and nothing changes. *)
Theorem read_without_max_age (fuel : nat) (p : nat) (w : World)
    (self : SSMParameter) :
  params w !! p = Some self ->
  is_None (_value self) = false ->
  _max_age (p_base self) = None \/ _max_age (p_base self) = Some 0 ->
  forall now : Z,
    SSMParameter_value (S fuel) p (with_clock now w)
    = Ok (_value self) (with_clock now w).
Proof.
  intros Hp Hv Hm now. apply value_cached; [exact Hp | exact Hv |].
  unfold Refreshable__should_refresh. now destruct Hm as [-> | ->].
Qed.

Lemma read_without_max_age_witness :
  let w := with_clock (seconds 86400) world_kept in
  SSMParameter_value 1 0 w = Ok (PStr "s3cret") w.
Proof.
  exact (read_without_max_age 0 0 world_kept
           {| p_base := policy None (Some 0); _name := "A";
              _value := PStr "s3cret"; _with_decryption := true;
              _group := None |} eq_refl eq_refl (or_introl eq_refl)
           (seconds 86400)).
Defined.

(** X8: a value of [None] counts as never fetched: when the store answers
    [None] for a parameter without a group, every read of [value] calls
    the store again, even with no [max_age], and the parameter is left
    ready to do so once more. *)
Theorem none_value_refetched (fuel : nat) (p : nat) (w : World)
    (self : SSMParameter) (cl : Client) (resp : PyVal) :
  params w !! p = Some self -> _group self = None ->
  is_None (_value self) = true ->
  _SSM_CLIENT w = Some cl ->
  get_parameters cl [_name self] (_with_decryption self) = Returns resp ->
  read_answer resp = inr PNone ->
  exists w' self',
    SSMParameter_value (S (S (S fuel))) p w = Ok PNone w'
    /\ log w' = log w ++ [EvGetParameters [_name self] (_with_decryption self)]
    /\ params w' !! p = Some self'
    /\ is_None (_value self') = true /\ _group self' = None
    /\ _name self' = _name self /\ _with_decryption self' = _with_decryption self
    /\ _SSM_CLIENT w' = Some cl.
Proof.
  intros Hp Hg Hv Hc Hget Hans.
  exists (refreshed cl self p PNone w),
         (set_base (stamp (clock w + latency cl) (p_base self))
            (set_value PNone self)).
  split.
  { apply (value_lone_fetches fuel p w self cl resp PNone); try assumption.
    unfold needs_refresh. now rewrite Hv. }
  split.
  { unfold refreshed; simpl. unfold update_param; simpl.
    rewrite Hp; simpl. now rewrite list_lookup_insert_eq
      by (now apply lookup_lt_Some in Hp). }
  split; [now apply params_refreshed|].
  repeat split; try assumption.
  unfold refreshed; simpl. unfold update_param; simpl.
  rewrite Hp; simpl. now rewrite list_lookup_insert_eq
    by (now apply lookup_lt_Some in Hp).
Qed.

Lemma none_value_refetched_witness :
  exists w', SSMParameter_value 3 0 world_null = Ok PNone w'
             /\ log w' = log world_null ++ [EvGetParameters ["A"%string] true].
Proof.
  destruct (none_value_refetched 0 0 world_null
              {| p_base := policy None (Some 0); _name := "A";
                 _value := PNone; _with_decryption := true; _group := None |}
              (flat_client PNone)
              (PDict [("Parameters"%string, PDict [("Value"%string, PNone)])])
              eq_refl eq_refl eq_refl eq_refl eq_refl eq_refl)
    as (w' & self' & H1 & H2 & _).
  exists w'. split; [exact H1 | exact H2].
Defined.

(** X9: when a read has to fetch and the store fails, the read fails with
    the store's error: no value is returned, the cached value and the time
    of the last refresh stay as they were, and the failed call is the one
    fetch made. *)
Theorem read_fails_with_store (fuel : nat) (p : nat) (w : World)
    (self : SSMParameter) (cl : Client) (e : exn) :
  params w !! p = Some self -> _group self = None ->
  needs_refresh self (utcnow w) = inr true ->
  _SSM_CLIENT w = Some cl ->
  get_parameters cl [_name self] (_with_decryption self) = Throws e ->
  SSMParameter_value (S (S (S fuel))) p w = Raise e (fetched cl self w)
  /\ params (fetched cl self w) = params w
  /\ log (fetched cl self w)
     = log w ++ [EvGetParameters [_name self] (_with_decryption self)].
Proof.
  intros Hp Hg Hs Hc Hget. split; [|split; reflexivity].
  rewrite (value_refreshes _ _ _ _ Hp Hs).
  apply bind_raise.
  now apply (lone_refresh_store_down fuel p w self cl e).
Qed.

Lemma read_fails_with_store_witness :
  SSMParameter_value 3 0 world_down
  = Raise (Exn ClientError "ThrottlingException")
      (record (EvGetParameters ["A"%string] true) world_down).
Proof.
  exact (proj1 (read_fails_with_store 0 0 world_down
                  {| p_base := policy None None; _name := "A";
                     _value := PNone; _with_decryption := true;
                     _group := None |}
                  failing_client (Exn ClientError "ThrottlingException")
                  eq_refl eq_refl eq_refl eq_refl eq_refl)).
Defined.

(** ** What a refresh never does *)

Lemma p_config_update (h : SSMParameter -> SSMParameter) p w :
  (forall prm, p_config (h prm) = p_config prm) ->
  config (update_param p h w) = config w.
Proof.
  intros Hh. unfold update_param.
  destruct (params w !! p) as [prm|] eqn:Hp; [|reflexivity].
  unfold config; simpl. now rewrite (fmap_update p_config h _ _ _ Hp).
Qed.

Lemma g_config_update (h : SSMParameterGroup -> SSMParameterGroup) g w :
  (forall grp, g_config (h grp) = g_config grp) ->
  config (update_group g h w) = config w.
Proof.
  intros Hh. unfold update_group.
  destruct (groups w !! g) as [grp|] eqn:Hg; [|reflexivity].
  unfold config; simpl. now rewrite (fmap_update g_config h _ _ _ Hg).
Qed.

Lemma config_stamp r t w : config (set_last_refresh_time r t w) = config w.
Proof.
  destruct r; simpl; [apply p_config_update | apply g_config_update];
    reflexivity.
Qed.

Lemma config_refresh fuel r : keeps config (Refreshable_refresh fuel r).
Proof.
  apply keeps_refresh; try reflexivity.
  - intros p v w. now apply p_config_update.
  - intros g t w. apply (config_stamp (RGroup g)).
  - intros p t w. apply (config_stamp (RParam p)).
Qed.

Lemma config_value fuel p : keeps config (SSMParameter_value fuel p).
Proof.
  destruct fuel as [|fuel]; [apply keeps_raise|]. simpl.
  apply keeps_bind; [apply keeps_the_param | intros self].
  apply keeps_bind; [apply keeps_get | intros w0].
  apply keeps_bind.
  { unfold lift. destruct (needs_refresh self (utcnow w0));
      [apply keeps_raise | apply keeps_ret]. }
  intros stale. apply keeps_bind.
  - destruct stale; [apply config_refresh | apply keeps_ret].
  - intros _. apply keeps_bind; [apply keeps_the_param | intros self'].
    apply keeps_ret.
Qed.

(** X10: refreshing an object or reading a value changes nothing of what
    was configured: the names, decryption flags, [max_age] and its
    [timedelta] of every parameter and group, the group of every
    parameter, the list of every group, in its order, the client factory.
    Only cached values, times of last refresh, the built client, the
    clock and the log can differ afterwards, whether the call returned or
    raised. *)
Theorem refresh_keeps_configuration (fuel : nat) (r : Ref) (p : nat)
    (w : World) :
  config (world_of (Refreshable_refresh fuel r w)) = config w
  /\ config (world_of (SSMParameter_value fuel p w)) = config w.
Proof. split; [apply config_refresh | apply config_value]. Qed.

Lemma allowed_config w w' ev :
  config w' = config w -> allowed w ev -> allowed w' ev.
Proof.
  intros Hc [->|[->|(p & prm & Hp & Hg & ->)]];
    [now left | now right; left |].
  right; right.
  assert ((p_config <$> params w') !! p = Some (p_config prm)) as H.
  { unfold config in Hc. injection Hc as -> _ _ _.
    now rewrite list_lookup_fmap, Hp. }
  rewrite list_lookup_fmap in H.
  destruct (params w' !! p) as [prm'|] eqn:Hp'; [|discriminate].
  injection H as H1 H2 H3 H4 H5.
  exists p, prm'. split; [exact Hp'|]. split; [congruence|].
  now rewrite H3, H4.
Qed.

Lemma trail_refl w : trail w w.
Proof.
  split; [reflexivity|]. exists []. split; [now rewrite app_nil_r | constructor].
Qed.

Lemma trail_trans w1 w2 w3 : trail w1 w2 -> trail w2 w3 -> trail w1 w3.
Proof.
  intros (Hc1 & evs1 & Hl1 & Ha1) (Hc2 & evs2 & Hl2 & Ha2).
  split; [congruence|].
  exists (evs1 ++ evs2). split; [now rewrite Hl2, Hl1, app_assoc|].
  apply Forall_app. split; [exact Ha1|].
  eapply Forall_impl; [exact Ha2|].
  intros ev Hev. now apply (allowed_config w2 w1).
Qed.

Lemma trail_silent w w' :
  config w' = config w -> log w' = log w -> trail w w'.
Proof.
  intros Hc Hl. split; [exact Hc|].
  exists []. split; [now rewrite app_nil_r | constructor].
Qed.

Lemma trail_record w ev c t :
  allowed w ev ->
  trail w (with_client c (with_clock t (record ev w))).
Proof.
  intros Hev. split; [reflexivity|].
  exists [ev]. split; [reflexivity | now constructor].
Qed.

Lemma follows_bind {A B} (m : M A) (k : A -> M B) :
  follows m -> (forall a, follows (k a)) -> follows (bind m k).
Proof.
  intros Hm Hk w. unfold bind. specialize (Hm w).
  destruct (m w) as [a w'|e w']; simpl in *; [|assumption].
  eapply trail_trans; [exact Hm | apply Hk].
Qed.

Lemma follows_keeps {A} (m : M A) :
  keeps config m -> keeps log m -> follows m.
Proof. intros Hc Hl w. now apply trail_silent. Qed.

Lemma follows_for_each (body : nat -> M unit) (xs : list nat) :
  (forall x, follows (body x)) -> follows (for_each body xs).
Proof.
  intros Hbody. induction xs as [|x xs IH]; simpl.
  - intros w. apply trail_refl.
  - apply follows_bind; [apply Hbody | intros _; exact IH].
Qed.

Lemma follows_get_ssm_client refresh :
  follows (SSMParameter_get_ssm_client refresh).
Proof.
  assert (follows build_client) as Hb.
  { intros w. unfold build_client, bind, get, modify, ret, raise.
    destruct (SSM_CLIENT_FACTORY w) as [c|]; [|destruct (boto3 w) as [c|]];
      simpl.
    - apply (trail_record w EvFactory (Some c) (clock w)). now left.
    - apply (trail_record w EvBoto3 (Some c) (clock w)). now right; left.
    - apply trail_refl. }
  intros w. unfold SSMParameter_get_ssm_client, bind, get.
  destruct (_SSM_CLIENT w); [destruct (negb refresh)|];
    try apply Hb. apply trail_refl.
Qed.

Lemma follows_stamp r :
  follows (do w <- get; modify (set_last_refresh_time r (utcnow w))).
Proof.
  apply follows_keeps; intros w; unfold bind, get, modify; simpl.
  - apply config_stamp.
  - destruct r; simpl; [unfold update_param; now destruct (params w !! _)
                       | unfold update_group; now destruct (groups w !! _)].
Qed.

Lemma trail_fetch w ev t :
  allowed w ev -> trail w (with_clock t (record ev w)).
Proof.
  intros Hev. split; [reflexivity|].
  exists [ev]. split; [reflexivity | now constructor].
Qed.

Lemma log_update_param p h w : log (update_param p h w) = log w.
Proof. unfold update_param. now destruct (params w !! p). Qed.

Lemma follows_fetch p self w :
  params w !! p = Some self -> _group self = None ->
  trail w (world_of
    ((do client <- SSMParameter_get_ssm_client false;
      do response <- call_get_parameters client [_name self]
                       (_with_decryption self);
      do parameters <- subscript response "Parameters";
      do v <- subscript parameters "Value";
      modify (update_param p (set_value v))) w)).
Proof.
  intros Hp Hg. unfold bind at 1.
  pose proof (follows_get_ssm_client false w) as H1.
  destruct (SSMParameter_get_ssm_client false w) as [c w1|e w1];
    simpl in *; [|exact H1].
  eapply trail_trans; [exact H1|].
  assert (allowed w1 (EvGetParameters [_name self] (_with_decryption self)))
    as Hev.
  { apply (allowed_config w w1); [apply H1|].
    right; right. now exists p, self. }
  destruct c as [cl|]; [|apply trail_refl].
  unfold bind, call_get_parameters, bind, modify.
  set (w2 := with_clock (clock w1 + latency cl)
               (record (EvGetParameters [_name self] (_with_decryption self))
                  w1)).
  assert (trail w1 w2) as H2 by now apply trail_fetch.
  destruct (get_parameters cl [_name self] (_with_decryption self))
    as [resp|e]; simpl; [|exact H2].
  unfold subscript.
  destruct (getitem resp "Parameters") as [e|ps]; simpl; [exact H2|].
  destruct (getitem ps "Value") as [e|v]; simpl; [exact H2|].
  eapply trail_trans; [exact H2|].
  apply trail_silent; [now apply p_config_update | apply log_update_param].
Qed.

Lemma follows_refresh_family fuel :
  (forall r, follows (Refreshable_refresh fuel r))
  /\ (forall p, follows (SSMParameter__refresh fuel p))
  /\ (forall g, follows (SSMParameterGroup__refresh fuel g)).
Proof.
  induction fuel as [|fuel (IHr & IHp & IHg)].
  { split; [|split]; intros ? w; apply trail_refl. }
  split; [|split].
  - intros r. simpl. apply follows_bind.
    + destruct r; [apply IHp | apply IHg].
    + intros _. apply follows_stamp.
  - intros p w.
    destruct (params w !! p) as [self|] eqn:Hp.
    + destruct (_group self) as [g|] eqn:Hg.
      * rewrite (param_refresh_grouped _ _ _ _ _ Hp Hg). apply IHr.
      * rewrite (param_refresh_alone _ _ _ _ Hp Hg). now apply follows_fetch.
    + rewrite (param_refresh_dangling _ _ _ Hp). apply trail_refl.
  - intros g w.
    destruct (groups w !! g) as [self|] eqn:Hg.
    + rewrite (group_refresh_unfold _ _ _ _ Hg).
      now apply follows_for_each.
    + rewrite (group_refresh_dangling _ _ _ Hg). apply trail_refl.
Qed.

(** X11: whatever is refreshed, in whatever world, the log only grows, and
    by nothing but calls that build the client and fetches of a single
    name: the name of a parameter of the store that has no group, with
    that parameter's decryption flag.  No fetch ever asks for two names. *)
Theorem refresh_fetches_one_name_at_a_time (fuel : nat) (r : Ref) (w : World) :
  exists evs,
    log (world_of (Refreshable_refresh fuel r w)) = log w ++ evs
    /\ Forall (allowed w) evs
    /\ Forall (fun ev => forall names wd,
                  ev = EvGetParameters names wd -> length names = 1%nat) evs.
Proof.
  destruct (follows_refresh_family fuel) as (Hr & _ & _).
  destruct (Hr r w) as (_ & evs & Hl & Ha).
  exists evs. split; [exact Hl|]. split; [exact Ha|].
  eapply Forall_impl; [exact Ha|].
  intros ev [->|[->|(p & prm & _ & _ & ->)]] names wd; try discriminate.
  now intros [= <- _].
Qed.

(** ** The state the methods keep *)

Lemma consistent_ext w w' :
  params w' = params w -> groups w' = groups w ->
  consistent w -> consistent w'.
Proof.
  intros Hp Hg (H1 & H2 & H3). unfold consistent, base_of.
  rewrite Hp, Hg. repeat split; try assumption.
  - now apply (H2 q prm g).
  - now apply (H2 q prm g).
Qed.

Lemma consistent_update_param p h w :
  (forall prm, params w !! p = Some prm ->
     _group (h prm) = _group prm
     /\ (forall g, _group prm = Some g -> _value (h prm) = _value prm)
     /\ (coherent (p_base prm) -> coherent (p_base (h prm)))) ->
  consistent w -> consistent (update_param p h w).
Proof.
  intros Hh (H1 & H2 & H3). unfold update_param.
  destruct (params w !! p) as [prm0|] eqn:Hp;
    [|exact (conj H1 (conj H2 H3))].
  destruct (Hh prm0 eq_refl) as (Hg & Hv & Hb).
  assert (forall q x, <[p := h prm0]> (params w) !! q = Some x ->
            (q = p /\ x = h prm0) \/ (q <> p /\ params w !! q = Some x)) as Hcases.
  { intros q x Hq. apply list_lookup_insert_Some in Hq as [(-> & <- & _)|[? ?]];
      [now left | right; split; [congruence | assumption]]. }
  assert ((p < length (params w))%nat) as Hlt by now apply lookup_lt_Some in Hp.
  split; [|split]; simpl.
  - intros g grp q Hgrp Hq. destruct (H1 g grp q Hgrp Hq) as (prm & Hprm & Hpg).
    destruct (decide (q = p)) as [->|Hne].
    + exists (h prm0). rewrite list_lookup_insert_eq by exact Hlt.
      split; [reflexivity|]. rewrite Hg. congruence.
    + exists prm. now rewrite list_lookup_insert_ne by congruence.
  - intros q x g Hq Hxg.
    destruct (Hcases q x Hq) as [[-> ->]|[Hne Hq']].
    + rewrite Hg in Hxg. destruct (H2 p prm0 g Hp Hxg) as (Hnone & Hgrp).
      split; [|exact Hgrp]. now rewrite (Hv g Hxg).
    + now apply (H2 q x g).
  - intros r b. destruct r as [q|g]; simpl.
    + destruct (<[p := h prm0]> (params w) !! q) as [x|] eqn:Hq; [|discriminate].
      intros [= <-].
      destruct (Hcases q x Hq) as [[-> ->]|[Hne Hq']].
      * apply Hb. apply (H3 (RParam p)). simpl. now rewrite Hp.
      * apply (H3 (RParam q)). simpl. now rewrite Hq'.
    + intros Hb'. now apply (H3 (RGroup g)).
Qed.

Lemma consistent_update_group g h w :
  (forall grp, _parameters (h grp) = _parameters grp
               /\ (coherent (g_base grp) -> coherent (g_base (h grp)))) ->
  consistent w -> consistent (update_group g h w).
Proof.
  intros Hh (H1 & H2 & H3). unfold update_group.
  destruct (groups w !! g) as [grp0|] eqn:Hg;
    [|exact (conj H1 (conj H2 H3))].
  destruct (Hh grp0) as (Hl & Hb).
  assert ((g < length (groups w))%nat) as Hlt by now apply lookup_lt_Some in Hg.
  split; [|split]; simpl.
  - intros g' grp q Hgrp Hq.
    apply list_lookup_insert_Some in Hgrp as [(-> & <- & _)|[Hne Hgrp]].
    + rewrite Hl in Hq. now apply (H1 g' grp0 q).
    + now apply (H1 g' grp q).
  - intros q x g' Hq Hxg. destruct (H2 q x g' Hq Hxg) as (Hnone & grp & Hgrp & Hin).
    split; [exact Hnone|].
    destruct (decide (g' = g)) as [->|Hne].
    + exists (h grp0). rewrite list_lookup_insert_eq by exact Hlt.
      split; [reflexivity|]. rewrite Hl. congruence.
    + exists grp. now rewrite list_lookup_insert_ne by congruence.
  - intros r b. destruct r as [q|g']; simpl.
    + intros Hb'. now apply (H3 (RParam q)).
    + destruct (decide (g' = g)) as [->|Hne].
      * rewrite list_lookup_insert_eq by exact Hlt. intros [= <-].
        apply Hb. apply (H3 (RGroup g)). simpl. now rewrite Hg.
      * rewrite list_lookup_insert_ne by congruence.
        intros Hb'. now apply (H3 (RGroup g')).
Qed.

Lemma consistent_stamp r t w :
  consistent w -> consistent (set_last_refresh_time r t w).
Proof.
  destruct r as [p|g]; simpl.
  - apply consistent_update_param. intros prm _. now repeat split.
  - apply consistent_update_group. intros grp. now split.
Qed.

Lemma consistent_fresh factory : consistent (fresh factory).
Proof.
  split; [|split].
  - intros g grp q Hg. discriminate.
  - intros q prm g Hq. discriminate.
  - intros [p|g] b; discriminate.
Qed.

Lemma lookup_snoc {A} (l : list A) (x y : A) i :
  (l ++ [x]) !! i = Some y ->
  l !! i = Some y \/ (i = length l /\ y = x).
Proof.
  intros H. apply lookup_app_Some in H as [H|[Hge H]]; [now left|].
  right. destruct (i - length l)%nat as [|n] eqn:Hn; simpl in H;
    [|discriminate].
  injection H as <-. split; [lia | reflexivity].
Qed.

Lemma lookup_snoc_old {A} (l : list A) (x y : A) i :
  l !! i = Some y -> (l ++ [x]) !! i = Some y.
Proof. intros H. now apply lookup_app_l_Some. Qed.

Lemma lookup_snoc_new {A} (l : list A) (x : A) :
  (l ++ [x]) !! length l = Some x.
Proof. rewrite lookup_app_r by lia. now rewrite Nat.sub_diag. Qed.

Lemma init_coherent m base : Refreshable_init m = inr base -> coherent base.
Proof.
  unfold Refreshable_init, new_timedelta.
  destruct (timedelta_ok (or_zero m)); [|discriminate]. now intros [= <-].
Qed.

Lemma consistent_init n m d w :
  consistent w -> consistent (world_of (SSMParameter_init n m d w)).
Proof.
  intros Hc. destruct (Refreshable_init m) as [e|base] eqn:Hi;
    [now rewrite (SSMParameter_init_raises _ _ _ _ _ Hi)|].
  rewrite (SSMParameter_init_returns _ _ _ _ _ Hi).
  pose proof (init_coherent _ _ Hi) as Hb.
  destruct Hc as (H1 & H2 & H3). split; [|split]; simpl.
  - intros g grp q Hg Hq. destruct (H1 g grp q Hg Hq) as (prm & Hp & Hpg).
    exists prm. split; [now apply lookup_snoc_old | exact Hpg].
  - intros q prm g Hq Hpg.
    apply lookup_snoc in Hq as [Hq|[_ ->]]; [|discriminate].
    now apply (H2 q prm g).
  - intros [q|g] b; simpl.
    + destruct ((params w ++ _) !! q) as [x|] eqn:Hq; [|discriminate].
      intros [= <-]. apply lookup_snoc in Hq as [Hq|[_ ->]]; [|exact Hb].
      apply (H3 (RParam q)). simpl. now rewrite Hq.
    + intros Hb'. now apply (H3 (RGroup g)).
Qed.

Lemma consistent_group_init m w :
  consistent w -> consistent (world_of (SSMParameterGroup_init m w)).
Proof.
  intros Hc. destruct (Refreshable_init m) as [e|base] eqn:Hi;
    [now rewrite (SSMParameterGroup_init_raises _ _ _ Hi)|].
  rewrite (SSMParameterGroup_init_returns _ _ _ Hi).
  pose proof (init_coherent _ _ Hi) as Hb.
  destruct Hc as (H1 & H2 & H3). split; [|split]; simpl.
  - intros g grp q Hg Hq.
    apply lookup_snoc in Hg as [Hg|[_ ->]]; [|now apply elem_of_nil in Hq].
    now apply (H1 g grp q).
  - intros q prm g Hq Hpg. destruct (H2 q prm g Hq Hpg) as (Hv & grp & Hg & Hin).
    split; [exact Hv|]. exists grp. split; [now apply lookup_snoc_old | exact Hin].
  - intros [q|g] b; simpl.
    + intros Hb'. now apply (H3 (RParam q)).
    + destruct ((groups w ++ _) !! g) as [x|] eqn:Hg; [|discriminate].
      intros [= <-]. apply lookup_snoc in Hg as [Hg|[_ ->]]; [|exact Hb].
      apply (H3 (RGroup g)). simpl. now rewrite Hg.
Qed.

Lemma parameter_unfold g grp n m d w base :
  groups w !! g = Some grp -> Refreshable_init m = inr base ->
  SSMParameterGroup_parameter g n m d w =
  Ok (length (params w))
   (with_groups (<[g := append_parameter (length (params w)) grp]> (groups w))
     (with_params
        (params w ++ [ {| p_base := base; _name := n;
                          _value := PNone; _with_decryption := d;
                          _group := Some g |} ]) w)).
Proof.
  intros Hg Hi. rewrite (parameter_returns _ _ _ _ _ _ Hi).
  set (new := {| p_base := base; _name := n; _value := PNone;
                 _with_decryption := d; _group := None |}).
  f_equal.
  rewrite (update_param_some _ _ (with_params (params w ++ [new]) w) new)
    by apply lookup_snoc_new.
  rewrite (update_group_some _ _ _ grp) by exact Hg.
  simpl. rewrite insert_app_r_alt by lia. now rewrite Nat.sub_diag.
Qed.

Lemma consistent_declare g grp n m d w :
  groups w !! g = Some grp ->
  consistent w ->
  consistent (world_of (SSMParameterGroup_parameter g n m d w)).
Proof.
  intros Hg Hc. destruct (Refreshable_init m) as [e|base] eqn:Hi;
    [now rewrite (parameter_raises _ _ _ _ _ _ Hi)|].
  rewrite (parameter_unfold _ _ _ _ _ _ _ Hg Hi).
  pose proof (init_coherent _ _ Hi) as Hb.
  destruct Hc as (H1 & H2 & H3).
  set (new := {| p_base := base; _name := n; _value := PNone;
                 _with_decryption := d; _group := Some g |}).
  assert ((g < length (groups w))%nat) as Hlt by now apply lookup_lt_Some in Hg.
  split; [|split]; simpl.
  - intros g' grp' q Hg' Hq.
    destruct (decide (g' = g)) as [->|Hne].
    + rewrite list_lookup_insert_eq in Hg' by exact Hlt.
      injection Hg' as <-. simpl in Hq.
      apply elem_of_app in Hq as [Hq|Hq].
      * destruct (H1 g grp q Hg Hq) as (prm & Hp & Hpg).
        exists prm. split; [now apply lookup_snoc_old | exact Hpg].
      * apply list_elem_of_singleton in Hq as ->.
        exists new. split; [apply lookup_snoc_new | reflexivity].
    + rewrite list_lookup_insert_ne in Hg' by congruence.
      destruct (H1 g' grp' q Hg' Hq) as (prm & Hp & Hpg).
      exists prm. split; [now apply lookup_snoc_old | exact Hpg].
  - intros q prm g' Hq Hpg.
    apply lookup_snoc in Hq as [Hq|[-> ->]].
    + destruct (H2 q prm g' Hq Hpg) as (Hv & grp' & Hg' & Hin).
      split; [exact Hv|].
      destruct (decide (g' = g)) as [->|Hne].
      * exists (append_parameter (length (params w)) grp).
        rewrite list_lookup_insert_eq by exact Hlt.
        split; [reflexivity|]. simpl. apply elem_of_app. left. congruence.
      * exists grp'. now rewrite list_lookup_insert_ne by congruence.
    + injection Hpg as <-. split; [reflexivity|].
      exists (append_parameter (length (params w)) grp).
      rewrite list_lookup_insert_eq by exact Hlt.
      split; [reflexivity|]. simpl. apply elem_of_app. right.
      now apply list_elem_of_singleton.
  - intros [q|g'] b; simpl.
    + destruct ((params w ++ [new]) !! q) as [x|] eqn:Hq; [|discriminate].
      intros [= <-]. apply lookup_snoc in Hq as [Hq|[_ ->]]; [|exact Hb].
      apply (H3 (RParam q)). simpl. now rewrite Hq.
    + destruct (decide (g' = g)) as [->|Hne].
      * rewrite list_lookup_insert_eq by exact Hlt. intros [= <-].
        apply (H3 (RGroup g)). simpl. now rewrite Hg.
      * rewrite list_lookup_insert_ne by congruence.
        intros Hb'. now apply (H3 (RGroup g')).
Qed.

(** In a consistent world a group with a parameter overflows the stack at
    once, and so does every parameter naming a group. *)
Lemma consistent_group_overflows fuel g grp w :
  consistent w -> groups w !! g = Some grp -> _parameters grp <> [] ->
  Refreshable_refresh fuel (RGroup g) w = Raise recursion_error w.
Proof.
  intros (H1 & _ & _) Hg Hne.
  destruct (_parameters grp) as [|q qs] eqn:Hl; [now destruct Hne|].
  destruct (H1 g grp q Hg) as (prm & Hp & Hpg).
  { rewrite Hl. apply elem_of_cons. now left. }
  now apply (refresh_of_owner_overflows fuel w g grp q qs prm).
Qed.

Lemma consistent_member_overflows fuel p self g w :
  consistent w -> params w !! p = Some self -> _group self = Some g ->
  Refreshable_refresh fuel (RParam p) w = Raise recursion_error w
  /\ SSMParameter__refresh fuel p w = Raise recursion_error w
  /\ SSMParameter_value fuel p w = Raise recursion_error w.
Proof.
  intros Hc Hp Hpg.
  destruct Hc as (H1 & H2 & H3).
  destruct (H2 p self g Hp Hpg) as (Hv & grp & Hg & Hin).
  assert (_parameters grp <> []) as Hne.
  { intros Hnil. rewrite Hnil in Hin. now apply elem_of_nil in Hin. }
  assert (forall f, SSMParameter__refresh f p w = Raise recursion_error w) as Hr.
  { intros [|f]; [reflexivity|].
    rewrite (param_refresh_grouped _ _ _ _ _ Hp Hpg).
    now apply (consistent_group_overflows f g grp w). }
  assert (forall f, Refreshable_refresh f (RParam p) w
                    = Raise recursion_error w) as Hrr.
  { intros [|f]; [reflexivity|].
    rewrite refresh_unfold. unfold concrete_refresh. now rewrite Hr. }
  split; [apply Hrr|]. split; [apply Hr|].
  destruct fuel as [|fuel]; [reflexivity|].
  rewrite (value_refreshes _ _ _ _ Hp)
    by (unfold needs_refresh; now rewrite Hv).
  apply bind_raise. apply Hrr.
Qed.

Lemma lone_refresh_cases fuel p w self :
  params w !! p = Some self -> _group self = None ->
  exists w1, params w1 = params w /\ groups w1 = groups w
    /\ ((exists e, SSMParameter__refresh (S fuel) p w = Raise e w1)
        \/ (exists v, SSMParameter__refresh (S fuel) p w
                      = Ok tt (update_param p (set_value v) w1))).
Proof.
  intros Hp Hg.
  pose proof (param_refresh_alone fuel p w self Hp Hg) as Hres.
  set (res := SSMParameter__refresh (S fuel) p w) in *. clearbody res.
  unfold bind, subscript in Hres.
  pose proof (keeps_get_ssm_client (fun w => (params w, groups w))
                (fun _ _ => eq_refl) (fun _ _ _ => eq_refl) false w) as H1.
  destruct (SSMParameter_get_ssm_client false w) as [c w1|e w1];
    simpl in H1; injection H1 as Hp1 Hg1; [|exists w1; eauto 6].
  pose proof (keeps_call_get_parameters (fun w => (params w, groups w))
                (fun _ _ => eq_refl) (fun _ _ _ => eq_refl)
                c [_name self] (_with_decryption self) w1) as H2.
  destruct (call_get_parameters c [_name self] (_with_decryption self) w1)
    as [resp w2|e w2]; simpl in H2; injection H2 as Hp2 Hg2;
    (exists w2; split; [congruence|]; split; [congruence|]); [|eauto].
  destruct (getitem resp "Parameters") as [e|ps]; simpl in Hres; [eauto|].
  destruct (getitem ps "Value") as [e|v]; simpl in Hres; [eauto|].
  right. now exists v.
Qed.

Lemma consistent_concrete_refresh fuel r w :
  consistent w -> consistent (world_of (concrete_refresh fuel r w)).
Proof.
  intros Hc. destruct fuel as [|fuel]; [now destruct r|].
  destruct r as [p|g]; unfold concrete_refresh.
  - destruct (params w !! p) as [self|] eqn:Hp.
    + destruct (_group self) as [g|] eqn:Hg.
      * destruct (consistent_member_overflows (S fuel) p self g w Hc Hp Hg)
          as (_ & -> & _). exact Hc.
      * destruct (lone_refresh_cases fuel p w self Hp Hg)
          as (w1 & Hp1 & Hg1 & [[e ->]|[v ->]]); simpl.
        -- now apply (consistent_ext w w1).
        -- apply consistent_update_param; [|now apply (consistent_ext w w1)].
           intros prm Hprm. rewrite Hp1, Hp in Hprm. injection Hprm as <-.
           split; [reflexivity|]. split; [intros g'; congruence | tauto].
    + now rewrite (param_refresh_dangling _ _ _ Hp).
  - destruct (groups w !! g) as [grp|] eqn:Hg.
    + rewrite (group_refresh_unfold _ _ _ _ Hg).
      destruct (_parameters grp) as [|q qs] eqn:Hl; [exact Hc|].
      pose proof (consistent_group_overflows (S (S fuel)) g grp w Hc Hg) as Ho.
      rewrite refresh_unfold in Ho. unfold concrete_refresh in Ho.
      rewrite (group_refresh_unfold _ _ _ _ Hg), Hl in Ho.
      destruct (for_each _ (q :: qs) w) as [[] w'|e w']; simpl.
      * specialize (Ho ltac:(discriminate)). discriminate.
      * specialize (Ho ltac:(discriminate)). now injection Ho as _ ->.
    + now rewrite (group_refresh_dangling _ _ _ Hg).
Qed.

Lemma consistent_refresh fuel r w :
  consistent w -> consistent (world_of (Refreshable_refresh fuel r w)).
Proof.
  intros Hc. destruct fuel as [|fuel]; [exact Hc|].
  rewrite refresh_unfold.
  pose proof (consistent_concrete_refresh fuel r w Hc) as H.
  destruct (concrete_refresh fuel r w) as [[] w'|e w']; simpl in *;
    [now apply consistent_stamp | exact H].
Qed.

Lemma value_world fuel p w :
  world_of (SSMParameter_value (S fuel) p w) = w
  \/ world_of (SSMParameter_value (S fuel) p w)
     = world_of (Refreshable_refresh fuel (RParam p) w).
Proof.
  destruct (params w !! p) as [self|] eqn:Hp.
  - destruct (needs_refresh self (utcnow w)) as [e|[|]] eqn:Hs.
    + left. now rewrite (value_test_raises _ _ _ _ _ Hp Hs).
    + right. rewrite (value_refreshes _ _ _ _ Hp Hs). unfold bind at 1.
      destruct (Refreshable_refresh fuel (RParam p) w) as [[] w'|e w'];
        simpl; [|reflexivity].
      unfold bind, the_param, bind, get. now destruct (params w' !! p).
    + left. unfold needs_refresh in Hs.
      destruct (is_None (_value self)) eqn:Hv; [discriminate|].
      now rewrite (value_cached _ _ _ _ Hp Hv Hs).
  - left. simpl.
    now rewrite (bind_raise _ _ _ _ _ (the_param_dangling _ _ Hp)).
Qed.

Lemma consistent_value fuel p w :
  consistent w -> consistent (world_of (SSMParameter_value fuel p w)).
Proof.
  intros Hc. destruct fuel as [|fuel]; [exact Hc|].
  destruct (value_world fuel p w) as [-> | ->];
    [exact Hc | now apply consistent_refresh].
Qed.

Lemma consistent_step o w : consistent w -> consistent (step o w).
Proof.
  intros Hc. destruct o; simpl.
  - now apply consistent_init.
  - now apply consistent_group_init.
  - destruct (groups w !! g) as [grp|] eqn:Hg; [|exact Hc].
    now apply (consistent_declare g grp).
  - now apply consistent_refresh.
  - now apply consistent_value.
  - now apply (consistent_ext w).
  - now apply (consistent_ext w).
Qed.

Lemma consistent_run ops w : consistent w -> consistent (run ops w).
Proof.
  revert w. induction ops as [|o ops IH]; intros w Hc; [exact Hc|].
  apply IH. now apply consistent_step.
Qed.

Lemma reachable_consistent w : reachable w -> consistent w.
Proof.
  intros (factory & ops & ->). apply consistent_run, consistent_fresh.
Qed.

Lemma world_AB_reachable : reachable world_AB.
Proof.
  exists (Some (ssm_client store_AB)),
    [NewGroup (Some 60); AddParameter 0 "A" None true; AddParameter 0 "B" None true].
  reflexivity.
Qed.

Lemma world_AB_consistent : consistent world_AB.
Proof. apply reachable_consistent, world_AB_reachable. Qed.







(** ** Declaring parameters *)

Lemma omap_ext_in {A B} (f f' : A -> option B) (l : list A) :
  (forall x, x ∈ l -> f' x = f x) -> omap f' l = omap f l.
Proof.
  induction l as [|x l IH]; intros H; [reflexivity|]. csimpl.
  rewrite (H x) by (apply elem_of_cons; now left).
  rewrite IH; [reflexivity|].
  intros y Hy. apply H. apply elem_of_cons. now right.
Qed.

(** X15: [group.parameter(name, ...)] puts the new parameter last: in a
    consistent world, when the call returns, the names of the group's
    parameters, in the order of its list, are the names it had followed by
    the new one; the call returns exactly when [max_age] makes a
    [timedelta], and when it raises the names are what they were.  The
    names of every other group are what they were in both cases. *)
Theorem parameter_declared_last (w : World) (g : nat)
    (grp : SSMParameterGroup) (param_name : string) (max_age : option Z)
    (with_decryption : bool) :
  consistent w -> groups w !! g = Some grp ->
  let r := SSMParameterGroup_parameter g param_name max_age
             with_decryption w in
  let w' := world_of r in
  returned r = timedelta_ok (or_zero max_age)
  /\ group_names w' g
     = group_names w g ++ (if returned r then [param_name] else [])
  /\ forall g', g' <> g -> group_names w' g' = group_names w g'.
Proof.
  intros (H1 & _ & _) Hg r w'. unfold w', r.
  destruct (timedelta_ok (or_zero max_age)) eqn:Hok.
  2:{ rewrite (parameter_raises _ _ _ _ _ _ (init_overflow _ Hok)). simpl.
      split; [reflexivity|]. split; [now rewrite app_nil_r | reflexivity]. }
  rewrite (parameter_unfold _ _ _ _ _ _ _ Hg (init_policy _ Hok)). simpl.
  split; [reflexivity|].
  set (new := {| p_base := policy max_age None; _name := param_name;
                 _value := PNone; _with_decryption := with_decryption;
                 _group := Some g |}).
  assert ((g < length (groups w))%nat) as Hlt by now apply lookup_lt_Some in Hg.
  assert (forall g0 grp0, groups w !! g0 = Some grp0 ->
            omap (fun q => _name <$> (params w ++ [new]) !! q)
                 (_parameters grp0)
            = omap (fun q => _name <$> params w !! q) (_parameters grp0))
    as Hold.
  { intros g0 grp0 Hg0. apply omap_ext_in. intros q Hq.
    destruct (H1 g0 grp0 q Hg0 Hq) as (prm & Hp & _).
    now rewrite (lookup_snoc_old _ new _ _ Hp), Hp. }
  split.
  - unfold group_names; simpl.
    rewrite list_lookup_insert_eq by exact Hlt. rewrite Hg. simpl.
    rewrite omap_app, (Hold g grp Hg). f_equal. simpl.
    now rewrite lookup_snoc_new.
  - intros g' Hne. unfold group_names; simpl.
    rewrite list_lookup_insert_ne by congruence.
    destruct (groups w !! g') as [grp'|] eqn:Hg'; [|reflexivity].
    now apply (Hold g').
Qed.

Lemma parameter_declared_last_witness :
  group_names
    (world_of (SSMParameterGroup_parameter 0 "C" None true world_AB)) 0
  = group_names world_AB 0 ++ ["C"%string].
Proof.
  exact (proj1 (proj2 (parameter_declared_last world_AB 0
                         {| g_base := policy (Some 60) None;
                            _parameters := [0%nat; 1%nat] |} "C" None true
                         world_AB_consistent eq_refl))).
Defined.

(** ** What a refresh of one parameter touches *)

Lemma update_param_other p h w q :
  q <> p -> params (update_param p h w) !! q = params w !! q.
Proof.
  intros Hne. unfold update_param.
  destruct (params w !! p); [simpl|reflexivity].
  now rewrite list_lookup_insert_ne by congruence.
Qed.

Lemma groups_update_param p h w : groups (update_param p h w) = groups w.
Proof. unfold update_param. now destruct (params w !! p). Qed.

(** X16: a [refresh()] of a parameter that has no group, whether it
    returns or raises, leaves every other parameter and every group
    exactly as they were. *)
Theorem lone_refresh_touches_one (fuel : nat) (p : nat) (w : World)
    (self : SSMParameter) :
  params w !! p = Some self -> _group self = None ->
  let w' := world_of (Refreshable_refresh fuel (RParam p) w) in
  groups w' = groups w
  /\ forall q, q <> p -> params w' !! q = params w !! q.
Proof.
  intros Hp Hg w'. unfold w'.
  destruct fuel as [|fuel]; [now split|].
  rewrite refresh_unfold. unfold concrete_refresh.
  destruct fuel as [|fuel]; [now split|].
  destruct (lone_refresh_cases fuel p w self Hp Hg)
    as (w1 & Hp1 & Hg1 & [[e ->]|[v ->]]); simpl.
  - split; [exact Hg1 | intros q _; now rewrite Hp1].
  - split.
    + now rewrite !groups_update_param.
    + intros q Hne. rewrite !update_param_other by exact Hne.
      now rewrite Hp1.
Qed.

Lemma lone_refresh_touches_one_witness :
  let w := world_of (SSMParameter_init "Z" None true world_AB) in
  groups (world_of (Refreshable_refresh 5 (RParam 2) w)) = groups w.
Proof.
  exact (proj1 (lone_refresh_touches_one 5 2
                  (world_of (SSMParameter_init "Z" None true world_AB))
                  {| p_base := policy None None; _name := "Z";
                     _value := PNone; _with_decryption := true;
                     _group := None |} eq_refl eq_refl)).
Defined.

(** ** More on the decorator *)

(** X17: when the decorated function returns, the decorated call returns
    the same result in the same world: the function has been invoked once,
    with the keyword arguments of the caller and no retry flag added,
    nothing has been refreshed and the callback has not been called. *)
Theorem wrapped_returns_what_func_returns (fuel : nat) (self : nat)
    (error_class : ExnClass) (error_callback : PyObj)
    (retry_argument : string) (func : PyFunction) (args : list PyVal)
    (kwargs : gmap string PyVal) (w : World) (v : PyVal) (w1 : World) :
  func args kwargs (record (EvInvoke args kwargs) w) = Ok v w1 ->
  quiet func ->
  wrapped fuel self error_class error_callback retry_argument func
    args kwargs w = Ok v w1
  /\ invocations w1 = S (invocations w).
Proof.
  intros Hf Hq.
  assert (invoke func args kwargs w = Ok v w1) as Hi by exact Hf.
  split.
  - unfold wrapped. now apply try_except_returned.
  - pose proof (invocations_invoke func args kwargs w Hq) as H.
    now rewrite Hi in H.
Qed.

Lemma wrapped_returns_what_func_returns_witness :
  let kwargs : gmap string PyVal := {[ "is_retry"%string := PBool true ]} in
  wrapped 5 0 Exception ObjNone "is_retry" fails_first [] kwargs world_up
  = Ok (PStr "done") (record (EvInvoke [] kwargs) world_up).
Proof.
  intros kwargs.
  apply (wrapped_returns_what_func_returns 5 0 Exception ObjNone
           "is_retry" fails_first [] kwargs world_up (PStr "done")
           (record (EvInvoke [] kwargs) world_up));
    [vm_compute; reflexivity | exact quiet_fails_first].
Defined.

(** X18: a function decorated by a parameter that names a group is never
    retried: in a consistent world, when its first invocation fails with
    an error that is caught, the refresh overflows the stack, and the
    decorated call ends in RecursionError in the world the first
    invocation left, the callback not called and the first error lost. *)
Theorem wrapped_by_group_member_never_retries (fuel : nat) (self : nat)
    (error_class : ExnClass) (error_callback : PyObj)
    (retry_argument : string) (func : PyFunction) (args : list PyVal)
    (kwargs : gmap string PyVal) (w : World) (e : exn) (w1 : World)
    (prm : SSMParameter) (g : nat) :
  invoke func args kwargs w = Raise e w1 ->
  isinstance e error_class = true ->
  consistent w1 -> params w1 !! self = Some prm -> _group prm = Some g ->
  wrapped fuel self error_class error_callback retry_argument func
    args kwargs w = Raise recursion_error w1.
Proof.
  intros Hf He Hc Hp Hg. unfold wrapped.
  rewrite (try_except_caught _ _ _ _ _ _ Hf He).
  apply bind_raise.
  now destruct (consistent_member_overflows fuel self prm g w1 Hc Hp Hg).
Qed.

Lemma wrapped_by_group_member_never_retries_witness :
  wrapped 1000 0 Exception ObjNone "is_retry" fails_first [] ∅ world_AB
  = Raise recursion_error (record (EvInvoke [] ∅) world_AB).
Proof.
  apply (wrapped_by_group_member_never_retries 1000 0 Exception ObjNone
           "is_retry" fails_first [] ∅ world_AB (Exn KeyError "token")
           (record (EvInvoke [] ∅) world_AB)
           {| p_base := policy None None; _name := "A"; _value := PNone;
              _with_decryption := true; _group := Some 0%nat |} 0);
    [reflexivity | reflexivity | | reflexivity | reflexivity].
  apply (consistent_ext world_AB); [reflexivity | reflexivity |].
  exact world_AB_consistent.
Defined.

(** X19: a function decorated by a parameter without a group is retried
    with the store's current value in place: when its first invocation
    fails with an error that is caught, the client is built, the store's
    answer can be read and no callback is given, the second invocation
    runs in the world where the parameter holds the fetched value and the
    time of that fetch, with the retry flag set, and its outcome is the
    outcome of the call. *)
Theorem wrapped_retry_sees_fetched_value (fuel : nat) (self : nat)
    (error_class : ExnClass) (error_callback : PyObj)
    (retry_argument : string) (func : PyFunction) (args : list PyVal)
    (kwargs : gmap string PyVal) (w : World) (e : exn) (w1 : World)
    (prm : SSMParameter) (cl : Client) (resp v : PyVal) :
  invoke func args kwargs w = Raise e w1 ->
  isinstance e error_class = true ->
  callable error_callback = false ->
  params w1 !! self = Some prm -> _group prm = None ->
  _SSM_CLIENT w1 = Some cl ->
  get_parameters cl [_name prm] (_with_decryption prm) = Returns resp ->
  read_answer resp = inr v ->
  wrapped (S (S fuel)) self error_class error_callback retry_argument func
    args kwargs w
  = invoke func args (<[retry_argument := PBool true]> kwargs)
      (refreshed cl prm self v w1)
  /\ _value <$> params (refreshed cl prm self v w1) !! self = Some v.
Proof.
  intros Hf He Hcb Hp Hg Hc Hget Hans. split.
  - unfold wrapped. rewrite (try_except_caught _ _ _ _ _ _ Hf He).
    rewrite (bind_ok _ _ _ _ _
               (refresh_lone_returns fuel self w1 prm cl resp v
                  Hp Hg Hc Hget Hans)).
    destruct error_callback as [| x | f]; [reflexivity | reflexivity |].
    discriminate.
  - now rewrite (params_refreshed cl prm self v w1 Hp).
Qed.

Lemma wrapped_retry_sees_fetched_value_witness :
  exists w2,
    wrapped 2 0 Exception ObjNone "is_retry" fails_first [] ∅ world_up
    = Ok (PStr "done") w2
    /\ _value <$> params w2 !! 0%nat = Some (PStr "s3cret").
Proof.
  assert (invoke fails_first [] ∅ world_up
          = Raise (Exn KeyError "token") (record (EvInvoke [] ∅) world_up))
    as Hf by reflexivity.
  destruct (wrapped_retry_sees_fetched_value 0 0 Exception ObjNone "is_retry"
              fails_first [] ∅ world_up (Exn KeyError "token")
              (record (EvInvoke [] ∅) world_up)
              {| p_base := policy None None; _name := "A"; _value := PNone;
                 _with_decryption := true; _group := None |}
              (flat_client (PStr "s3cret"))
              (PDict [("Parameters"%string,
                       PDict [("Value"%string, PStr "s3cret")])])
              (PStr "s3cret")
              Hf eq_refl eq_refl eq_refl eq_refl eq_refl eq_refl eq_refl)
    as [H1 H2].
  eexists. split; [rewrite H1; vm_compute; reflexivity|].
  vm_compute. reflexivity.
Defined.

(** ** Two reads in a row *)

Lemma params_with_clock now w : params (with_clock now w) = params w.
Proof. reflexivity. Qed.

(** X20: a read that fetched a value other than [None] is followed by
    reads that do not fetch, for as long as the clock has not passed the
    end of that fetch plus [max_age]: the second read returns the value
    the first one cached and changes nothing.  This when the end of the
    fetch plus [max_age] is a date of the years 1 to 9999, or [max_age] is
    zero and no date is computed. *)
Theorem second_read_uses_cache (fuel fuel' : nat) (p : nat) (w : World)
    (self : SSMParameter) (cl : Client) (resp v : PyVal) (d : Z)
    (last : option Z) (now : Z) :
  params w !! p = Some self -> _group self = None ->
  p_base self = policy (Some d) last ->
  needs_refresh self (utcnow w) = inr true ->
  _SSM_CLIENT w = Some cl ->
  get_parameters cl [_name self] (_with_decryption self) = Returns resp ->
  read_answer resp = inr v ->
  is_None v = false ->
  d = 0 \/ datetime_ok (clock w + latency cl + timedelta d) = true ->
  now <= clock w + latency cl + timedelta d ->
  (do _ <- SSMParameter_value (S (S (S fuel))) p;
   do _ <- modify (with_clock now);
   SSMParameter_value (S fuel') p) w
  = Ok v (with_clock now (refreshed cl self p v w)).
Proof.
  intros Hp Hg Hb Hs Hc Hget Hans Hv Hok Hnow.
  rewrite (bind_ok _ _ _ _ _
             (value_lone_fetches fuel p w self cl resp v
                Hp Hg Hs Hc Hget Hans)).
  unfold bind at 1, modify.
  pose proof (params_refreshed cl self p v w Hp) as Hp'.
  rewrite <- (params_with_clock now) in Hp'.
  rewrite (value_cached fuel' p _ _ Hp'); [reflexivity | exact Hv |].
  simpl. rewrite Hb. now apply should_refresh_fresh.
Qed.

Lemma second_read_uses_cache_witness :
  let w := world_of (Refreshable_refresh 5 (RParam 0)
             (world_lone (flat_client (PStr "s3cret")) "A" (Some 60) true)) in
  exists w', (do _ <- SSMParameter_value 3 0;
              do _ <- modify (with_clock (seconds 60));
              SSMParameter_value 1 0) w = Ok (PStr "s3cret") w'.
Proof.
  eexists.
  apply (second_read_uses_cache 0 0 0 _
           {| p_base := policy (Some 60) None; _name := "A"; _value := PNone;
              _with_decryption := true; _group := None |}
           (flat_client (PStr "s3cret"))
           (PDict [("Parameters"%string,
                    PDict [("Value"%string, PStr "s3cret")])])
           (PStr "s3cret") 60 None (seconds 60));
    [reflexivity | reflexivity | reflexivity | reflexivity | reflexivity
    | reflexivity | reflexivity | reflexivity | right; reflexivity
    | vm_compute; discriminate].
Defined.

(** ** Where the dates end *)

(** X21: a cached value whose parameter was last refreshed at [t], with a
    [max_age] of [d] not zero such that [t + d] is no date of the years 1
    to 9999, cannot be read: [value] raises OverflowError from the test of
    staleness, whatever the clock reads; the store is not called and
    nothing changes. *)
Theorem read_overflows_out_of_range (fuel : nat) (p : nat) (w : World)
    (self : SSMParameter) (d t : Z) :
  params w !! p = Some self ->
  is_None (_value self) = false ->
  p_base self = policy (Some d) (Some t) ->
  d <> 0 -> datetime_ok (t + timedelta d) = false ->
  SSMParameter_value (S fuel) p w
  = Raise (overflow_error "date value out of range") w.
Proof.
  intros Hp Hv Hb Hd Hok. apply (value_test_raises fuel p w self _ Hp).
  unfold needs_refresh. rewrite Hv, Hb.
  now apply should_refresh_overflows.
Qed.

Lemma read_overflows_out_of_range_witness :
  params world_far !! 0%nat
  = Some {| p_base := policy (Some 1000000000000) (Some 0); _name := "A";
            _value := PStr "s3cret"; _with_decryption := true;
            _group := None |}
  /\ SSMParameter_value 1 0 world_far
     = Raise (overflow_error "date value out of range") world_far.
Proof.
  split; [reflexivity|].
  apply (read_overflows_out_of_range 0 0 world_far
           {| p_base := policy (Some 1000000000000) (Some 0); _name := "A";
              _value := PStr "s3cret"; _with_decryption := true;
              _group := None |} 1000000000000 0);
    [reflexivity | reflexivity | reflexivity | discriminate | reflexivity].
Defined.

